(** * The static symbol resolver of the AOT compiler

    A shallow embedding of
    [modules/@angular/compiler/src/aot/static_symbol_resolver.ts]:
    the resolver's three caches, the metadata store, the reference
    transformer, the export walker and the member projector, followed by
    the properties of the resolver that are established about them. *)

From Stdlib Require Import ZArith Lia.
From stdpp Require Import base strings list gmap pretty.

Local Open Scope string_scope.
Local Open Scope list_scope.

(** ** Symbol handles *)

(** Modelled from the spec: [StaticSymbol] and [StaticSymbolCache] live in
    [./static_symbol], outside this file.  A handle is the triple
    (declaring file, name, member path); the cache interns handles, so two
    handles with equal triples are the same object.  Identity of handles is
    therefore equality of records here, and [getStaticSymbol] builds the
    record (an omitted [members] argument is the empty path). *)
Record StaticSymbol := mkStaticSymbol {
  filePath : string;
  name : string;
  members : list string
}.

#[global] Instance StaticSymbol_eq_dec : EqDecision StaticSymbol.
Proof. solve_decision. Defined.

Definition getStaticSymbol (declarationFile name : string)
    (members : option (list string)) : StaticSymbol :=
  mkStaticSymbol declarationFile name (default [] members).

(** ** Metadata values

    Metadata is loosely typed ([any] in the source): JSON-like trees in
    which, after transformation, symbol handles appear as leaves.  An object
    is the list of its own properties in enumeration order.  Numbers are
    the integers.  Metadata holds no function; where a property access
    finds one (in a prototype), it is the object of its own properties. *)
Unset Elimination Schemes.
Inductive value :=
| VUndefined
| VNull
| VBool (b : bool)
| VNum (n : Z)
| VStr (s : string)
| VArr (xs : list value)
| VObj (kvs : list (string * value))
| VSym (s : StaticSymbol).
Set Elimination Schemes.

(** Structural induction through the lists nested in arrays and objects. *)
Section value_ind.
Variable P : value → Prop.
Hypothesis Hundef : P VUndefined.
Hypothesis Hnull : P VNull.
Hypothesis Hbool : ∀ b, P (VBool b).
Hypothesis Hnum : ∀ n, P (VNum n).
Hypothesis Hstr : ∀ s, P (VStr s).
Hypothesis Harr : ∀ xs, Forall P xs → P (VArr xs).
Hypothesis Hobj : ∀ kvs, Forall (λ kv, P kv.2) kvs → P (VObj kvs).
Hypothesis Hsym : ∀ s, P (VSym s).

Fixpoint value_ind (v : value) : P v :=
  match v with
  | VUndefined => Hundef
  | VNull => Hnull
  | VBool b => Hbool b
  | VNum n => Hnum n
  | VStr s => Hstr s
  | VArr xs =>
      Harr xs ((fix all (l : list value) : Forall P l :=
                  match l with
                  | [] => Forall_nil_2 P
                  | x :: r => Forall_cons_2 P x r (value_ind x) (all r)
                  end) xs)
  | VObj kvs =>
      Hobj kvs ((fix all (l : list (string * value)) :
                     Forall (λ kv, P kv.2) l :=
                   match l with
                   | [] => Forall_nil_2 _
                   | kv :: r =>
                       Forall_cons_2 _ kv r (value_ind kv.2) (all r)
                   end) kvs)
  | VSym s => Hsym s
  end.
End value_ind.

(** JavaScript truthiness, as used by [if (v)], [!v], [a && b], [a || b]. *)
Definition truthy (v : value) : bool :=
  match v with
  | VUndefined | VNull | VBool false | VNum 0 | VStr "" => false
  | _ => true
  end.

(** [a === b].  Primitives compare by content and handles by identity
    (which interning makes equality of triples); two arrays or objects are
    equal only when they are one object, which never happens between
    distinct nodes of a metadata tree. *)
Definition strict_eq (a b : value) : bool :=
  match a, b with
  | VUndefined, VUndefined | VNull, VNull => true
  | VBool x, VBool y => bool_decide (x = y)
  | VNum x, VNum y => bool_decide (x = y)
  | VStr x, VStr y => bool_decide (x = y)
  | VSym x, VSym y => bool_decide (x = y)
  | _, _ => false
  end.

(** Own-property lookup in an object, [undefined] when absent. *)
Fixpoint obj_get (kvs : list (string * value)) (k : string) : value :=
  match kvs with
  | [] => VUndefined
  | (k', v) :: rest => if bool_decide (k' = k) then v else obj_get rest k
  end.

Fixpoint obj_find (kvs : list (string * value)) (k : string) : option value :=
  match kvs with
  | [] => None
  | (k', v) :: rest => if bool_decide (k' = k) then Some v else obj_find rest k
  end.

(** Element of an array under a property key: the element whose index,
    written in decimal, is the key. *)
Fixpoint arr_find (xs : list value) (i : nat) (k : string) : option value :=
  match xs with
  | [] => None
  | x :: rest =>
      if bool_decide (pretty i = k) then Some x else arr_find rest (S i) k
  end.

(** The own properties of a value that is not a primitive: the entries of
    an object, the elements and the [length] of an array, the three
    fields of a handle. *)
Definition own_property (v : value) (k : string) : option value :=
  match v with
  | VObj kvs => obj_find kvs k
  | VArr xs =>
      if bool_decide (k = "length") then Some (VNum (Z.of_nat (length xs)))
      else arr_find xs 0 k
  | VSym s =>
      if bool_decide (k = "filePath") then Some (VStr (filePath s))
      else if bool_decide (k = "name") then Some (VStr (name s))
      else if bool_decide (k = "members") then Some (VArr (VStr <$> members s))
      else None
  | _ => None
  end.

(** What a property access finds beyond the own properties is not the
    resolver's business but the engine's: [inherited v k] is the result of
    looking [k] up along the prototype chain of the object, array or
    handle [v] ([constructor], [toString], the array methods, ...;
    [undefined] when the chain has no such property), and
    [primitive_get v k] is the property [k] of the string, number or
    boolean [v], which the engine boxes first (the [length] and the code
    units of a string, the methods of the wrapper's prototype).  The
    engine is a parameter of the model. *)
Record Engine := mkEngine {
  inherited : value → string → value;
  primitive_get : value → string → value
}.

(** [v[k]] for a truthy [v]: an own property if there is one, else what
    [v] inherits.  ([undefined] and [null] have no properties; every use
    in the resolver is guarded by a truthiness test.) *)
Definition get_prop (engine : Engine) (v : value) (k : string) : value :=
  match v with
  | VUndefined | VNull => VUndefined
  | VBool _ | VNum _ | VStr _ => primitive_get engine v k
  | VArr _ | VObj _ | VSym _ =>
      match own_property v k with
      | Some x => x
      | None => inherited engine v k
      end
  end.

(** String conversion, as performed by a template literal.  The metadata
    schema makes [name] and [module] of a reference node strings; a truthy
    value of another type reaches the string-typed collaborators through
    this conversion. *)
Fixpoint js_string (v : value) : string :=
  match v with
  | VUndefined => "undefined"
  | VNull => "null"
  | VBool true => "true"
  | VBool false => "false"
  | VNum n => pretty n
  | VStr s => s
  | VArr xs =>
      (fix join (first : bool) (l : list value) : string :=
         match l with
         | [] => ""
         | x :: rest =>
             (if first then "" else ",") +:+
             (match x with VUndefined | VNull => "" | _ => js_string x end) +:+
             join false rest
         end) true xs
  | VObj _ | VSym _ => "[object Object]"
  end.

(** The characters of a string, each as a one-character string. *)
Fixpoint chars (s : string) : list value :=
  match s with
  | EmptyString => []
  | String c rest => VStr (String c EmptyString) :: chars rest
  end.

(** ** Module metadata documents

    The documents the host hands out, typed as the metadata schema types
    them: a version, the declarations ([metadata]) and the export
    directives.  An optional field that is absent is [None]. *)
Inductive ExportSymbol :=
| ExportStr (s : string)                 (* a bare name *)
| ExportObj (name as_ : string).         (* [{name, as}] *)

Record ModuleExport := mkModuleExport {
  export : option (list ExportSymbol);   (* absent for [export *] *)
  from : string
}.

Record ModuleMetadata := mkModuleMetadata {
  version : Z;
  module : option string;
  metadata : option (list (string * value));
  exports : option (list ModuleExport)
}.

Record ResolvedStaticSymbol := mkResolvedStaticSymbol {
  rs_symbol : StaticSymbol;
  rs_metadata : value
}.

Definition SUPPORTED_SCHEMA_VERSION : Z := 3.

(** ** Exceptions, collaborators and resolver state *)

Inductive exn :=
| JsError (message : string)
| JsTypeError (message : string).

(** Result of a call into a collaborator that may throw. *)
Inductive call (A : Type) :=
| Returns (a : A)
| Throws (e : exn).
Arguments Returns {A} a.
Arguments Throws {A} e.

(** [StaticSymbolResolverHost].  [getMetadataFor] may hand back nothing at
    all ([None]); [moduleNameToFileName] returns a path or [null], or
    throws. *)
Record StaticSymbolResolverHost := mkHost {
  getMetadataFor : string → option (list ModuleMetadata);
  moduleNameToFileName : string → string → call (option string)
}.

(** Modelled from the spec: [SummaryResolver] lives in
    [../summary_resolver], outside this file.  It answers, for a handle,
    with the metadata of a precompiled summary if it has one, and, for a
    file, with the handles it knows there. *)
Record SummaryResolver := mkSummaryResolver {
  resolveSummary : StaticSymbol → option value;
  summary_getSymbolsOf : string → list StaticSymbol
}.

(** The three caches of a resolver, the calls received so far by the
    [errorRecorder] callback and the lines written to the console. *)
Record state := mkState {
  metadataCache : gmap string ModuleMetadata;
  resolvedSymbols : list (StaticSymbol * ResolvedStaticSymbol);
  resolvedFilePaths : gset string;
  recorded : list (exn * option string);
  console : list string
}.

Definition new_resolver : state := mkState ∅ [] ∅ [] [].

(** A computation on the resolver either returns or throws; the mutations
    made before a throw persist. *)
Inductive outcome (A : Type) :=
| Val (a : A) (st : state)
| Exn (e : exn) (st : state).
Arguments Val {A} a st.
Arguments Exn {A} e st.

Definition M (A : Type) : Type := state → outcome A.

Definition ret {A} (a : A) : M A := λ st, Val a st.
Definition raise {A} (e : exn) : M A := λ st, Exn e st.
Definition bind {A B} (c : M A) (k : A → M B) : M B :=
  λ st, match c st with
        | Val a st' => k a st'
        | Exn e st' => Exn e st'
        end.

Notation "'let*' x ':=' c 'in' k" := (bind c (λ x, k))
  (at level 10, x pattern, c at level 100, k at level 200, only parsing).

(** Insertion-ordered [Map.set]: an existing key keeps its place. *)
Fixpoint map_set {K V} `{EqDecision K} (k : K) (v : V) (m : list (K * V))
    : list (K * V) :=
  match m with
  | [] => [(k, v)]
  | (k', v') :: rest =>
      if decide (k' = k) then (k, v) :: rest else (k', v') :: map_set k v rest
  end.

Fixpoint map_get {K V} `{EqDecision K} (k : K) (m : list (K * V)) : option V :=
  match m with
  | [] => None
  | (k', v') :: rest => if decide (k' = k) then Some v' else map_get k rest
  end.

(** Insertion-ordered [Set.add]. *)
Definition set_add {K} `{EqDecision K} (x : K) (s : list K) : list K :=
  if decide (x ∈ s) then s else s ++ [x].

(** The five mutations a resolver performs on its state. *)
Definition log_console (line : string) (st : state) : state :=
  mkState (metadataCache st) (resolvedSymbols st) (resolvedFilePaths st)
    (recorded st) (console st ++ [line]).

Definition record_error (error : exn) (fileName : option string) (st : state)
    : state :=
  mkState (metadataCache st) (resolvedSymbols st) (resolvedFilePaths st)
    (recorded st ++ [(error, fileName)]) (console st).

Definition store_metadata (module : string) (md : ModuleMetadata) (st : state)
    : state :=
  mkState (<[module := md]> (metadataCache st)) (resolvedSymbols st)
    (resolvedFilePaths st) (recorded st) (console st).

Definition mark_resolved (filePath : string) (st : state) : state :=
  mkState (metadataCache st) (resolvedSymbols st)
    ({[filePath]} ∪ resolvedFilePaths st) (recorded st) (console st).

Definition register (resolvedSymbol : ResolvedStaticSymbol) (st : state) : state :=
  mkState (metadataCache st)
    (map_set (rs_symbol resolvedSymbol) resolvedSymbol (resolvedSymbols st))
    (resolvedFilePaths st) (recorded st) (console st).

(** Computations that recurse through the export graph carry fuel; [None]
    is "out of fuel", never a result of the program. *)
Definition MF (A : Type) : Type := state → option (outcome A).

Definition retF {A} (a : A) : MF A := λ st, Some (Val a st).
Definition lift {A} (c : M A) : MF A := λ st, Some (c st).
Definition bindF {A B} (c : MF A) (k : A → MF B) : MF B :=
  λ st, match c st with
        | Some (Val a st') => k a st'
        | Some (Exn e st') => Some (Exn e st')
        | None => None
        end.

Notation "'let+' x ':=' c 'in' k" := (bindF c (λ x, k))
  (at level 10, x pattern, c at level 100, k at level 200, only parsing).

(** [forEach] with an accumulator, in either monad. *)
Fixpoint foldM {A B} (f : B → A → M B) (l : list A) (acc : B) : M B :=
  match l with
  | [] => ret acc
  | x :: rest => let* acc' := f acc x in foldM f rest acc'
  end.

Fixpoint foldMF {A B} (f : B → A → MF B) (l : list A) (acc : B) : MF B :=
  match l with
  | [] => retF acc
  | x :: rest => let+ acc' := f acc x in foldMF f rest acc'
  end.

(** Truthiness of a file path that may be [null] or [undefined]. *)
Definition path_truthy (p : option string) : bool :=
  match p with
  | Some s => negb (bool_decide (s = ""))
  | None => false
  end.

(** [...v] in an argument list: the elements of an array, the characters of
    a string, a [TypeError] for anything else. *)
Definition iterate (v : value) : option (list value) :=
  match v with
  | VArr xs => Some xs
  | VStr s => Some (chars s)
  | _ => None
  end.

Definition spread (v : value) : M (list value) :=
  match iterate v with
  | Some xs => ret xs
  | None => raise (JsTypeError "Spread syntax requires ...iterable[Symbol.iterator] to be a function")
  end.

(** The discriminator tests of the transformer. *)
Definition is_function (map : list (string * value)) : bool :=
  strict_eq (obj_get map "__symbolic") (VStr "function").

Definition is_reference (map : list (string * value)) : bool :=
  strict_eq (obj_get map "__symbolic") (VStr "reference").

(** What a function node pushes on the scope: [map['parameters'] || []]. *)
Definition parameters_or_empty (map : list (string * value)) : value :=
  let parameters := obj_get map "parameters" in
  if truthy parameters then parameters else VArr [].

(** [new e] for a caught exception [e]: what a collaborator throws is an
    error object, not a constructor. *)
Definition js_new (e : exn) : M exn :=
  raise (JsTypeError "e is not a constructor").

Section Resolver.
Variable host : StaticSymbolResolverHost.
Variable summaryResolver : SummaryResolver.
(** Whether the optional [errorRecorder] callback was given to the
    constructor.  The callback is modelled by the log [recorded] of the
    calls it receives. *)
Variable errorRecorder : bool.
(** The engine the resolver runs on, for the property accesses of the
    member projector. *)
Variable engine : Engine.

Definition console_error (line : string) : M unit :=
  λ st, Val () (log_console line st).

Definition reportError (error : exn) (context : option StaticSymbol)
    (path : option string) : M unit :=
  if errorRecorder then
    let fileName :=
      match context with
      | Some c => if bool_decide (filePath c = "") then path else Some (filePath c)
      | None => path
      end in
    λ st, Val () (record_error error fileName st)
  else raise error.

Definition resolveModule (module containingFile : string) : M (option string) :=
  match moduleNameToFileName host module containingFile with
  | Returns p => ret p
  | Throws e =>
      let* _ := console_error ("Could not resolve module '" +:+ module +:+
                               "' relative to file " +:+ containingFile) in
      let* e' := js_new e in
      let* _ := reportError e' None (Some containingFile) in
      ret None
  end.

(** The [forEach] of [getModuleMetadata] with its two variables,
    [maxVersion] (initially -1) and [moduleMetadata] (initially
    [undefined], this being a cache miss). *)
Definition select_metadata (moduleMetadatas : list ModuleMetadata)
    : option ModuleMetadata :=
  snd (fold_left
         (λ '(maxVersion, moduleMetadata) md,
            if (maxVersion <? version md)%Z then (version md, Some md)
            else (maxVersion, moduleMetadata))
         moduleMetadatas ((-1)%Z, None)).

Definition version_error (module : string) (v : Z) : exn :=
  JsError
    (if bool_decide (v = 2%Z) then
       "Unsupported metadata version " +:+ pretty v +:+ " for module " +:+
       module +:+ ". This module should be compiled with a newer version of ngc"
     else
       "Metadata version mismatch for module " +:+ module +:+
       ", found version " +:+ pretty v +:+ ", expected " +:+
       pretty SUPPORTED_SCHEMA_VERSION).

Definition getModuleMetadata (module : string) : M ModuleMetadata :=
  λ st,
    match metadataCache st !! module with
    | Some moduleMetadata => Val moduleMetadata st
    | None =>
        let moduleMetadata :=
          match getMetadataFor host module with
          | Some moduleMetadatas => select_metadata moduleMetadatas
          | None => None
          end in
        let moduleMetadata :=
          default (mkModuleMetadata SUPPORTED_SCHEMA_VERSION (Some module)
                     (Some []) None) moduleMetadata in
        (let* _ :=
           if bool_decide (version moduleMetadata ≠ SUPPORTED_SCHEMA_VERSION)
           then reportError (version_error module (version moduleMetadata))
                  None None
           else ret () in
         let* _ := (λ st, Val () (store_metadata module moduleMetadata st)) in
         ret moduleMetadata) st
    end.

(** *** The reference transformer

    Modelled from the spec: [visitValue] and [ValueTransformer] live in
    [../util], outside this file.  [visitValue] dispatches on the shape of
    the node; the base transformer rebuilds arrays and objects from their
    visited children, in order, and returns primitives and other values
    as they are.  The override [visitStringMap] below is the source's.

    The array [functionParams] is one mutable object shared by the whole
    traversal, so it is threaded through: each visit receives it and
    hands it back. *)
Section Transformer.
Variable sourceSymbol : StaticSymbol.

Fixpoint visitValue (v : value) (functionParams : list value) {struct v}
    : M (value * list value) :=
  match v with
  | VArr arr =>
      let* (result, functionParams) :=
        (fix visitArray (arr : list value) (functionParams : list value)
             : M (list value * list value) :=
           match arr with
           | [] => ret ([], functionParams)
           | x :: rest =>
               let* (x', functionParams) :=
                 visitValue x functionParams in
               let* (rest', functionParams) := visitArray rest functionParams in
               ret (x' :: rest', functionParams)
           end) arr functionParams in
      ret (VArr result, functionParams)
  | VObj map =>
      let super_visitStringMap (functionParams : list value)
          : M (value * list value) :=
        let* (result, functionParams) :=
          (fix each (kvs : list (string * value)) (functionParams : list value)
               : M (list (string * value) * list value) :=
             match kvs with
             | [] => ret ([], functionParams)
             | (key, x) :: rest =>
                 let* (x', functionParams) :=
                   visitValue x functionParams in
                 let* (rest', functionParams) := each rest functionParams in
                 ret ((key, x') :: rest', functionParams)
             end) map functionParams in
        ret (VObj result, functionParams) in
      if is_function map then
        let oldLen := length functionParams in
        let* pushed := spread (parameters_or_empty map) in
        let* (result, functionParams) :=
          super_visitStringMap (functionParams ++ pushed) in
        ret (result, take oldLen functionParams)
      else if is_reference map then
        let module := obj_get map "module" in
        let name := obj_get map "name" in
        if negb (truthy name) then ret (VNull, functionParams)
        else if truthy module then
          let* filePath' :=
            resolveModule (js_string module) (filePath sourceSymbol) in
          if negb (path_truthy filePath') then
            ret (VObj [("__symbolic", VStr "error");
                       ("message", VStr ("Could not resolve " +:+ js_string module +:+
                                         " relative to " +:+ filePath sourceSymbol +:+ "."))],
                 functionParams)
          else
            ret (VSym (getStaticSymbol (default "" filePath') (js_string name) None),
                 functionParams)
        else
          (* functionParams.indexOf(name) >= 0 *)
          let isFunctionParam := existsb (λ p, strict_eq p name) functionParams in
          let filePath' := if negb isFunctionParam then Some (filePath sourceSymbol)
                           else None in
          if path_truthy filePath' then
            ret (VSym (getStaticSymbol (default "" filePath') (js_string name) None),
                 functionParams)
          else
            (* reference to a function parameter *)
            ret (VObj [("__symbolic", VStr "reference"); ("name", name)],
                 functionParams)
      else super_visitStringMap functionParams
  | _ => ret (v, functionParams)
  end.

(** The two loops of the base transformer, as functions of their own. *)
Fixpoint visitArray (arr : list value) (functionParams : list value)
    : M (list value * list value) :=
  match arr with
  | [] => ret ([], functionParams)
  | x :: rest =>
      let* (x', functionParams) := visitValue x functionParams in
      let* (rest', functionParams) := visitArray rest functionParams in
      ret (x' :: rest', functionParams)
  end.

Fixpoint visitEntries (kvs : list (string * value)) (functionParams : list value)
    : M (list (string * value) * list value) :=
  match kvs with
  | [] => ret ([], functionParams)
  | (key, x) :: rest =>
      let* (x', functionParams) := visitValue x functionParams in
      let* (rest', functionParams) := visitEntries rest functionParams in
      ret ((key, x') :: rest', functionParams)
  end.

Definition super_visitStringMap (map : list (string * value))
    (functionParams : list value) : M (value * list value) :=
  let* (result, functionParams) := visitEntries map functionParams in
  ret (VObj result, functionParams).

End Transformer.

Definition createResolvedSymbol (sourceSymbol : StaticSymbol) (metadata : value)
    : M ResolvedStaticSymbol :=
  let* (transformedMeta, _) := visitValue sourceSymbol metadata [] in
  ret (mkResolvedStaticSymbol sourceSymbol transformedMeta).

(** *** The export walker and [getSymbolsOf] *)

Definition getSymbolsOf_with (_createSymbolsOf : string → MF unit)
    (filePath' : string) : MF (list StaticSymbol) :=
  let symbols :=
    fold_left (λ symbols s, set_add s symbols)
      (summary_getSymbolsOf summaryResolver filePath') [] in
  let+ _ := _createSymbolsOf filePath' in
  λ st,
    Some (Val (fold_left
                 (λ symbols '(_, resolvedSymbol),
                    if bool_decide (filePath (rs_symbol resolvedSymbol) = filePath')
                    then set_add (rs_symbol resolvedSymbol) symbols
                    else symbols)
                 (resolvedSymbols st) symbols) st).

(** [_createSymbolsOf], block by block.  First the block "handle direct
    declarations of the symbol": one entry per declared name, holding the
    transform of its metadata. *)
Definition declaredSymbols (filePath' : string) (metadata' : ModuleMetadata)
    (resolvedSymbols' : list ResolvedStaticSymbol)
    : M (list ResolvedStaticSymbol) :=
  match metadata metadata' with
  | Some declarations =>
      foldM
        (λ acc symbolName,
           let symbolMeta := obj_get declarations symbolName in
           let* r := createResolvedSymbol
                       (getStaticSymbol filePath' symbolName None) symbolMeta in
           ret (acc ++ [r]))
        (declarations.*1) resolvedSymbols'
  | None => ret resolvedSymbols'
  end.

(** The block "handle the symbols in one of the re-export location". *)
Definition exportedSymbols (getSymbolsOf : string → MF (list StaticSymbol))
    (filePath' : string) (metadata' : ModuleMetadata)
    (resolvedSymbols' : list ResolvedStaticSymbol)
    : MF (list ResolvedStaticSymbol) :=
  match exports metadata' with
  | Some exports' =>
      foldMF
        (λ acc moduleExport,
           match export moduleExport with
           | Some exportSymbols =>
               (* the list of explicitly re-exported symbols *)
               lift (foldM
                       (λ acc exportSymbol,
                          let symbolName :=
                            match exportSymbol with
                            | ExportStr s => s
                            | ExportObj _ as_ => as_
                            end in
                          let symName :=
                            match exportSymbol with
                            | ExportStr _ => symbolName
                            | ExportObj name _ => name
                            end in
                          let* resolvedModule :=
                            resolveModule (from moduleExport) filePath' in
                          if path_truthy resolvedModule then
                            let targetSymbol :=
                              getStaticSymbol (default "" resolvedModule)
                                symName None in
                            let sourceSymbol :=
                              getStaticSymbol filePath' symbolName None in
                            ret (acc ++ [mkResolvedStaticSymbol sourceSymbol
                                           (VSym targetSymbol)])
                          else ret acc)
                       exportSymbols acc)
           | None =>
               (* handle the symbols via export * directives *)
               let+ resolvedModule :=
                 lift (resolveModule (from moduleExport) filePath') in
               if path_truthy resolvedModule then
                 let+ nestedExports :=
                   getSymbolsOf (default "" resolvedModule) in
                 retF (acc ++
                       ((λ targetSymbol,
                           mkResolvedStaticSymbol
                             (getStaticSymbol filePath' (name targetSymbol) None)
                             (VSym targetSymbol)) <$> nestedExports))
               else retF acc
           end)
        exports' resolvedSymbols'
  | None => retF resolvedSymbols'
  end.

(** What follows the early return and the mark in the set of resolved
    files: load the document, collect the entries of the two blocks in the
    local array, then store them all in the cache. *)
Definition _createSymbolsOf_unresolved
    (getSymbolsOf : string → MF (list StaticSymbol)) (filePath' : string)
    : MF unit :=
  let resolvedSymbols' : list ResolvedStaticSymbol := [] in
  let+ metadata' := lift (getModuleMetadata filePath') in
  let+ resolvedSymbols' :=
    lift (declaredSymbols filePath' metadata' resolvedSymbols') in
  let+ resolvedSymbols' :=
    exportedSymbols getSymbolsOf filePath' metadata' resolvedSymbols' in
  λ st,
    Some (Val () (fold_left (λ st resolvedSymbol, register resolvedSymbol st)
                    resolvedSymbols' st)).

Definition _createSymbolsOf_body (getSymbolsOf : string → MF (list StaticSymbol))
    (filePath' : string) : MF unit :=
  λ st,
    if bool_decide (filePath' ∈ resolvedFilePaths st) then Some (Val () st)
    else
      (let+ _ := (λ st, Some (Val () (mark_resolved filePath' st))) in
       _createSymbolsOf_unresolved getSymbolsOf filePath') st.

(** [_createSymbolsOf] and [getSymbolsOf] call each other; the fuel
    bounds the nesting of walker calls. *)
Fixpoint _createSymbolsOf (fuel : nat) (filePath' : string) : MF unit :=
  match fuel with
  | O => λ _, None
  | S fuel' => _createSymbolsOf_body (getSymbolsOf_with (_createSymbolsOf fuel')) filePath'
  end.

Definition getSymbolsOf (fuel : nat) : string → MF (list StaticSymbol) :=
  getSymbolsOf_with (_createSymbolsOf fuel).

(** *** [resolveSymbol] and the member projector *)

Definition _resolveSymbolFromSummary (staticSymbol : StaticSymbol)
    : option ResolvedStaticSymbol :=
  match resolveSummary summaryResolver staticSymbol with
  | Some summary_metadata =>
      Some (mkResolvedStaticSymbol staticSymbol summary_metadata)
  | None => None
  end.

(** The loop of [_resolveSymbolMembers]:
    [for (i = 0; i < members.length && value; i++) value = value[members[i]]]. *)
Fixpoint walk_members (value' : value) (members' : list string) : value :=
  match members' with
  | [] => value'
  | m :: rest =>
      if truthy value' then walk_members (get_prop engine value' m) rest
      else value'
  end.

Definition _resolveSymbolMembers
    (resolveSymbol : StaticSymbol → MF (option ResolvedStaticSymbol))
    (staticSymbol : StaticSymbol) : MF (option ResolvedStaticSymbol) :=
  let members' := members staticSymbol in
  let+ baseResolvedSymbol :=
    resolveSymbol (getStaticSymbol (filePath staticSymbol) (name staticSymbol) None) in
  match baseResolvedSymbol with
  | None => retF None
  | Some baseResolvedSymbol =>
      let baseMetadata := rs_metadata baseResolvedSymbol in
      match baseMetadata with
      | VSym b =>
          retF (Some (mkResolvedStaticSymbol staticSymbol
                        (VSym (getStaticSymbol (filePath b) (name b) (Some members')))))
      | _ =>
          if truthy baseMetadata &&
             strict_eq (get_prop engine baseMetadata "__symbolic") (VStr "class")
          then
            let statics := get_prop engine baseMetadata "statics" in
            match members' with
            | [m] =>
                if truthy statics then
                  retF (Some (mkResolvedStaticSymbol staticSymbol
                                (get_prop engine statics m)))
                else retF None
            | _ => retF None
            end
          else
            retF (Some (mkResolvedStaticSymbol staticSymbol
                          (walk_members baseMetadata members')))
      end
  end.

(** The branch of [resolveSymbol] for a handle with an empty member path. *)
Definition resolveSymbol_base (fuel : nat) (staticSymbol : StaticSymbol)
    : MF (option ResolvedStaticSymbol) :=
  match _resolveSymbolFromSummary staticSymbol with
  | Some result => retF (Some result)
  | None =>
      let+ _ := _createSymbolsOf fuel (filePath staticSymbol) in
      λ st, Some (Val (map_get staticSymbol (resolvedSymbols st)) st)
  end.

(** [resolveSymbol].  [_resolveSymbolMembers] calls back into it with the
    base handle, whose member path is empty, so that inner call takes the
    other branch and the recursion is one level deep. *)
Definition resolveSymbol (fuel : nat) (staticSymbol : StaticSymbol)
    : MF (option ResolvedStaticSymbol) :=
  if bool_decide (0 < length (members staticSymbol)) then
    _resolveSymbolMembers (resolveSymbol_base fuel) staticSymbol
  else resolveSymbol_base fuel staticSymbol.

(** [getSymbolByModule]: unlike the walker, it raises on a module that
    does not resolve. *)
Definition getSymbolByModule (module symbolName containingFile : string)
    : M StaticSymbol :=
  let* filePath' := resolveModule module containingFile in
  if negb (path_truthy filePath') then
    raise (JsError ("Could not resolve module " +:+ module +:+ " relative to " +:+
                    containingFile))
  else ret (getStaticSymbol (default "" filePath') symbolName None).

End Resolver.


(** ** Positions in a metadata tree

    Used to speak about a node inside a tree and about the scope in force
    when the transformer reaches it. *)
Inductive step :=
| Key (k : string)
| Index (i : nat).

Definition child (v : value) (s : step) : option value :=
  match v, s with
  | VObj kvs, Key k => obj_find kvs k
  | VArr xs, Index i => xs !! i
  | _, _ => None
  end.

Fixpoint get_path (v : value) (p : list step) : option value :=
  match p with
  | [] => Some v
  | s :: p' =>
      match child v s with
      | Some c => get_path c p'
      | None => None
      end
  end.

(** The scope with which the children of [v] are visited when [v] itself
    is visited with scope [functionParams]; [None] when the transformer
    does not descend into [v]. *)
Definition enter (v : value) (functionParams : list value) : option (list value) :=
  match v with
  | VArr _ => Some functionParams
  | VObj map =>
      if is_function map then
        (λ pushed, functionParams ++ pushed) <$> iterate (parameters_or_empty map)
      else if is_reference map then None
      else Some functionParams
  | _ => None
  end.

(** [visits_at v fp p d fpd]: a visit of [v] with scope [fp] reaches the
    node [d] at position [p] of [v], with scope [fpd]. *)
Inductive visits_at : value → list value → list step → value → list value → Prop :=
| visits_here v fp : visits_at v fp [] v fp
| visits_down v fp fp1 s c p d fpd :
    enter v fp = Some fp1 →
    child v s = Some c →
    visits_at c fp1 p d fpd →
    visits_at v fp (s :: p) d fpd.

(** A reference node without module specifier, and the marker the
    transformer leaves for a reference to a function parameter. *)
Definition local_reference (d name : value) : Prop :=
  ∃ map, d = VObj map ∧ is_reference map = true ∧
         truthy (obj_get map "module") = false ∧
         obj_get map "name" = name ∧ truthy name = true.

Definition lexical_marker (name : value) : value :=
  VObj [("__symbolic", VStr "reference"); ("name", name)].

(** A reference node with a module specifier. *)
Definition module_reference (d module name : value) : Prop :=
  ∃ map, d = VObj map ∧ is_reference map = true ∧
         obj_get map "module" = module ∧ truthy module = true ∧
         obj_get map "name" = name ∧ truthy name = true.

Definition error_marker (module : value) (currentFile : string) : value :=
  VObj [("__symbolic", VStr "error");
        ("message", VStr ("Could not resolve " +:+ js_string module +:+
                          " relative to " +:+ currentFile +:+ "."))].

(** Nodes on which the transformer cannot raise a [TypeError] of its own:
    every function node has an iterable (or no) parameter list. *)
Fixpoint iterable_parameters (v : value) : bool :=
  match v with
  | VArr xs =>
      (fix all (l : list value) : bool :=
         match l with
         | [] => true
         | x :: rest => iterable_parameters x && all rest
         end) xs
  | VObj map =>
      (if is_function map
       then bool_decide (is_Some (iterate (parameters_or_empty map)))
       else true) &&
      (fix all (l : list (string * value)) : bool :=
         match l with
         | [] => true
         | (_, x) :: rest => iterable_parameters x && all rest
         end) map
  | _ => true
  end.

(** A host whose module resolution answers (with a path or with [null])
    without throwing. *)
Definition never_throws (host : StaticSymbolResolverHost) : Prop :=
  ∀ module containingFile,
    ∃ p, moduleNameToFileName host module containingFile = Returns p.

(** ** How a resolver's state evolves

    Every mutation the resolver performs is one of five; [evolves] is any
    sequence of them.  A document is stored only for a file that has none
    yet, and only handles with an empty member path are registered. *)
Inductive mutation : state → state → Prop :=
| mut_console st line : mutation st (log_console line st)
| mut_record st e fileName : mutation st (record_error e fileName st)
| mut_store st module md :
    metadataCache st !! module = None →
    mutation st (store_metadata module md st)
| mut_mark st filePath : mutation st (mark_resolved filePath st)
| mut_register st rs :
    members (rs_symbol rs) = [] → mutation st (register rs st).

Definition evolves : state → state → Prop := rtc mutation.

(** [runs c Q]: whatever [c] does to the state is an evolution, and a
    returned value satisfies [Q]. *)
Definition runs {A} (c : M A) (Q : A → Prop) : Prop :=
  ∀ st, match c st with
        | Val a st' => evolves st st' ∧ Q a
        | Exn _ st' => evolves st st'
        end.

(** The same for a computation with fuel, from a state satisfying [P];
    when [T] holds the computation moreover does not run out of fuel. *)
Definition specF {A} (T : Prop) (P : state → Prop) (c : MF A) (Q : A → Prop)
    : Prop :=
  ∀ st, P st →
        match c st with
        | Some (Val a st') => evolves st st' ∧ Q a
        | Some (Exn _ st') => evolves st st'
        | None => ¬ T
        end.

Definition stable (P : state → Prop) : Prop :=
  ∀ st st', P st → evolves st st' → P st'.

(** What the walker collects for a file are entries of that file with an
    empty member path. *)
Definition entries_of (filePath' : string) (acc : list ResolvedStaticSymbol) : Prop :=
  Forall (λ rs, filePath (rs_symbol rs) = filePath' ∧ members (rs_symbol rs) = []) acc.

(** The files the host resolves some module specifier to. *)
Definition resolved_by (host : StaticSymbolResolverHost) (p : string) : Prop :=
  ∃ module containingFile,
    moduleNameToFileName host module containingFile = Returns (Some p).

(** The cache of resolved symbols is keyed by the symbol of each entry, and
    no key carries a member path. *)
Definition cache_ok (st : state) : Prop :=
  Forall (λ '(k, rs), k = rs_symbol rs ∧ members k = []) (resolvedSymbols st).

(** The document [getModuleMetadata] yields for a file in a given state:
    the cached one, else the host's candidate of highest version, else the
    synthesized empty document. *)
Definition synthesized_metadata (module : string) : ModuleMetadata :=
  mkModuleMetadata SUPPORTED_SCHEMA_VERSION (Some module) (Some []) None.

Definition selected_metadata (host : StaticSymbolResolverHost) (module : string)
    : ModuleMetadata :=
  default (synthesized_metadata module)
    (getMetadataFor host module ≫= select_metadata).

Definition document_of (host : StaticSymbolResolverHost) (st : state)
    (module : string) : ModuleMetadata :=
  default (selected_metadata host module) (metadataCache st !! module).

(** File [A] has an [export * from] directive that the host resolves
    to file [B]. *)
Definition wildcard_exports (host : StaticSymbolResolverHost) (st : state)
    (A B : string) : Prop :=
  ∃ exports' moduleExport,
    exports (document_of host st A) = Some exports' ∧
    moduleExport ∈ exports' ∧
    export moduleExport = None ∧
    moduleNameToFileName host (from moduleExport) A = Returns (Some B).

(** The handles collected by [getSymbolsOf] from the summary resolver's
    answer and from a cache. *)
Definition collect (summaryResolver : SummaryResolver) (filePath' : string)
    (cache : list (StaticSymbol * ResolvedStaticSymbol)) : list StaticSymbol :=
  fold_left
    (λ symbols '(_, resolvedSymbol),
       if bool_decide (filePath (rs_symbol resolvedSymbol) = filePath')
       then set_add (rs_symbol resolvedSymbol) symbols
       else symbols)
    cache
    (fold_left (λ symbols s, set_add s symbols)
       (summary_getSymbolsOf summaryResolver filePath') []).

(** The base handle of a handle: same file and name, empty member path. *)
Definition base_of (s : StaticSymbol) : StaticSymbol :=
  getStaticSymbol (filePath s) (name s) None.

(** A base value that is neither an alias nor a truthy value of kind
    "class". *)
Definition plain_base (engine : Engine) (v : value) : Prop :=
  (∀ b, v ≠ VSym b) ∧
  truthy v && strict_eq (get_prop engine v "__symbolic") (VStr "class") = false.

(** The entries the walker makes for the declarations [names] of file
    [f]: for each name, its handle with the transform of its metadata. *)
Definition declared (host : StaticSymbolResolverHost) (errorRecorder : bool)
    (f : string) (declarations : list (string * value))
    (names : list string) (rs : list ResolvedStaticSymbol) : Prop :=
  Forall2
    (λ n r,
       rs_symbol r = getStaticSymbol f n None ∧
       ∀ st, visitValue host errorRecorder (getStaticSymbol f n None)
               (obj_get declarations n) [] st = Val (rs_metadata r, []) st)
    names rs.

(** Every declaration of a document is a tree the transformer cannot fail on. *)
Definition iterable_declarations (md : ModuleMetadata) : Prop :=
  ∀ declarations n,
    metadata md = Some declarations → n ∈ declarations.*1 →
    iterable_parameters (obj_get declarations n) = true.

(** A project on which the resolver cannot raise: module resolution never
    throws, the transformer cannot fail on a declaration of a document the
    host selects, and version mismatches, if any, go to an error
    recorder. *)
Definition quiet_project (host : StaticSymbolResolverHost) (errorRecorder : bool)
    : Prop :=
  never_throws host ∧
  (∀ f, iterable_declarations (selected_metadata host f)) ∧
  (errorRecorder = true ∨
   ∀ f, version (selected_metadata host f) = SUPPORTED_SCHEMA_VERSION).

(** The same for the documents a state holds in its cache already. *)
Definition quiet_state (st : state) : Prop :=
  ∀ f md, metadataCache st !! f = Some md → iterable_declarations md.

(** [returnsF c Q]: from a quiet state, [c] does not raise, ends in a
    quiet state, and returns a value in [Q]. *)
Definition returnsF {A} (c : MF A) (Q : A → Prop) : Prop :=
  ∀ st, quiet_state st →
        match c st with
        | Some (Val a st') => quiet_state st' ∧ Q a
        | Some (Exn _ _) => False
        | None => True
        end.

(** ** The entries an export directive makes

    The name under which an entry of an explicit export list is exported,
    and the name it has in the module it comes from. *)
Definition exported_as (x : ExportSymbol) : string :=
  match x with
  | ExportStr s => s
  | ExportObj _ as_ => as_
  end.

Definition exported_name (x : ExportSymbol) : string :=
  match x with
  | ExportStr s => s
  | ExportObj name _ => name
  end.

(** The alias that file [f] gets for the entry [x] of an explicit
    directive whose module specifier resolved to file [p], and the alias
    it gets through [export *] for a handle of the re-exported file. *)
Definition explicit_alias (f p : string) (x : ExportSymbol) : ResolvedStaticSymbol :=
  mkResolvedStaticSymbol (getStaticSymbol f (exported_as x) None)
    (VSym (getStaticSymbol p (exported_name x) None)).

Definition wildcard_alias (f : string) (targetSymbol : StaticSymbol)
    : ResolvedStaticSymbol :=
  mkResolvedStaticSymbol (getStaticSymbol f (name targetSymbol) None)
    (VSym targetSymbol).

(** [entry_from host f e r]: the directive [e] of file [f] can make the
    entry [r].  Its module specifier resolves to a file; if the directive
    is explicit, [r] is the alias of one of its entries; if it is
    [export *], [r] is the alias of some handle, under that handle's
    name. *)
Definition entry_from (host : StaticSymbolResolverHost) (f : string)
    (e : ModuleExport) (r : ResolvedStaticSymbol) : Prop :=
  ∃ p, moduleNameToFileName host (from e) f = Returns (Some p) ∧ p ≠ "" ∧
       match export e with
       | Some exportSymbols => ∃ x, x ∈ exportSymbols ∧ r = explicit_alias f p x
       | None => ∃ targetSymbol, r = wildcard_alias f targetSymbol
       end.


(** The names a document declares, and the raw metadata of a name. *)
Definition declared_names (md : ModuleMetadata) : list string :=
  match metadata md with
  | Some declarations => declarations.*1
  | None => []
  end.

Definition declaration_of (md : ModuleMetadata) (n : string) : value :=
  match metadata md with
  | Some declarations => obj_get declarations n
  | None => VUndefined
  end.

(** [made_for host errorRecorder f md n r]: the walk of file [f] with
    document [md] can have made the entry [r] for the name [n].  It is an
    entry for the handle [(f, n)], holding a transform of the declaration
    of [n] or made by an export directive of [md]. *)
Definition made_for (host : StaticSymbolResolverHost) (errorRecorder : bool)
    (f : string) (md : ModuleMetadata) (n : string) (r : ResolvedStaticSymbol)
    : Prop :=
  rs_symbol r = getStaticSymbol f n None ∧
  ((∃ st fp' st',
      visitValue host errorRecorder (getStaticSymbol f n None)
        (declaration_of md n) [] st = Val (rs_metadata r, fp') st') ∨
   (∃ exports' e, exports md = Some exports' ∧ e ∈ exports' ∧
                  entry_from host f e r)).

(** A file whose walk is complete: its document is stored and every name
    the document declares has an entry in the cache. *)
Definition settled (host : StaticSymbolResolverHost) (errorRecorder : bool)
    (f : string) (st : state) : Prop :=
  ∃ md, metadataCache st !! f = Some md ∧
        ∀ n, n ∈ declared_names md →
             ∃ r, map_get (getStaticSymbol f n None) (resolvedSymbols st) = Some r ∧
                  made_for host errorRecorder f md n r.

(** What a walk that returns has done to the state: it is an evolution;
    a document it stored is the one selected from the host's answer; the
    entries of the files that were marked before are as they were; and
    every file it marked is settled. *)
Definition walked (host : StaticSymbolResolverHost) (errorRecorder : bool)
    (st st' : state) : Prop :=
  evolves st st' ∧
  (∀ g md, metadataCache st' !! g = Some md →
           metadataCache st !! g = Some md ∨ md = selected_metadata host g) ∧
  (∀ k, filePath k ∈ resolvedFilePaths st →
        map_get k (resolvedSymbols st') = map_get k (resolvedSymbols st)) ∧
  (∀ g, g ∈ resolvedFilePaths st' → g ∉ resolvedFilePaths st →
        settled host errorRecorder g st').

(** A string that is empty or begins with a decimal digit. *)
Definition starts_with_digit (s : string) : Prop :=
  match s with
  | EmptyString => True
  | String c _ =>
      String c "" ∈ ["0"; "1"; "2"; "3"; "4"; "5"; "6"; "7"; "8"; "9"]
  end.

(** ** A small project, for concrete runs

    Two files that wildcard-export each other, a file that re-exports one
    name of another under an alias, a class with statics, and a document
    of a version that is not the supported one. *)
Module Example.

(** A function object, by its own properties. *)
Definition function_object (name : string) (arity : Z) : value :=
  VObj [("length", VNum arity); ("name", VStr name)].

(** A small engine, for the runs below.  Of the prototype chain it knows
    the [constructor] of objects and of arrays; to every other lookup it
    answers [undefined], which is what an engine answers for the keys
    that the runs look up beyond own properties. *)
Definition engine : Engine :=
  mkEngine
    (λ v k,
       if bool_decide (k = "constructor") then
         match v with
         | VObj _ => function_object "Object" 1
         | VArr _ => function_object "Array" 1
         | _ => VUndefined
         end
       else VUndefined)
    (λ _ _, VUndefined).

Definition ref (n : string) : value :=
  VObj [("__symbolic", VStr "reference"); ("name", VStr n)].

Definition ref_from (m n : string) : value :=
  VObj [("__symbolic", VStr "reference"); ("module", VStr m); ("name", VStr n)].

(** [{__symbolic: 'function', parameters: ['x'], value: {reference x}}] *)
Definition fn_node : value :=
  VObj [("__symbolic", VStr "function");
        ("parameters", VArr [VStr "x"]);
        ("value", ref "x")].

Definition here : StaticSymbol := mkStaticSymbol "/app/a" "f" [].

(** A host with no metadata that resolves no module. *)
Definition host_null : StaticSymbolResolverHost :=
  mkHost (λ _, None) (λ _ _, Returns None).

(** A host with no metadata whose module resolution throws. *)
Definition host_throwing : StaticSymbolResolverHost :=
  mkHost (λ _, None) (λ _ _, Throws (JsError "module not found")).

Definition no_summaries : SummaryResolver :=
  mkSummaryResolver (λ _, None) (λ _, []).

(** Two files that wildcard-export each other. *)
Definition cycle_a : ModuleMetadata :=
  mkModuleMetadata 3 None (Some [("a", VNum 1)]) (Some [mkModuleExport None "./b"]).

Definition cycle_b : ModuleMetadata :=
  mkModuleMetadata 3 None (Some [("b", VNum 2)]) (Some [mkModuleExport None "./a"]).

Definition host_cycle : StaticSymbolResolverHost :=
  mkHost
    (λ f, if bool_decide (f = "/app/a") then Some [cycle_a]
          else if bool_decide (f = "/app/b") then Some [cycle_b]
          else None)
    (λ m _, if bool_decide (m = "./a") then Returns (Some "/app/a")
            else if bool_decide (m = "./b") then Returns (Some "/app/b")
            else Returns None).

Definition sym (f n : string) : StaticSymbol := mkStaticSymbol f n [].

(** A summary resolver that knows one symbol of [/app/a], and reports it
    twice. *)
Definition summaries_a : SummaryResolver :=
  mkSummaryResolver (λ _, None)
    (λ f, if bool_decide (f = "/app/a") then [sym "/app/a" "s"; sym "/app/a" "s"]
          else []).

(** A file declaring a class with statics and a plain configuration
    object. *)
Definition class_doc : ModuleMetadata :=
  mkModuleMetadata 3 None
    (Some [("C", VObj [("__symbolic", VStr "class");
                       ("statics", VObj [("foo", VNum 42)])]);
           ("cfg", VObj [("a", VObj [("b", VNum 7)])])])
    None.

Definition host_class : StaticSymbolResolverHost :=
  mkHost (λ f, if bool_decide (f = "/app/c") then Some [class_doc] else None)
         (λ _ _, Returns None).







(** A document of a version that is not the supported one. *)
Definition future_doc : ModuleMetadata :=
  mkModuleMetadata 99 None (Some [("answer", VNum 42)]) None.

Definition host_future : StaticSymbolResolverHost :=
  mkHost (λ f, if bool_decide (f = "/app/v") then Some [future_doc] else None)
         (λ _ _, Returns None).

(** Three candidates for one file, two of them of the highest version. *)
Definition candidate (v : Z) (n : string) : ModuleMetadata :=
  mkModuleMetadata v None (Some [(n, VNum v)]) None.

Definition host_candidates : StaticSymbolResolverHost :=
  mkHost (λ f, if bool_decide (f = "/app/m")
               then Some [candidate 1 "old"; candidate 3 "first"; candidate 3 "second"]
               else None)
         (λ _ _, Returns None).

(** A single candidate, of version -1. *)
Definition host_negative : StaticSymbolResolverHost :=
  mkHost (λ f, if bool_decide (f = "/app/n") then Some [candidate (-1) "x"] else None)
         (λ _ _, Returns None).

End Example.

(** * Properties *)

(** ** Reasoning about the two monads *)

Lemma bind_Val {A B} (c : M A) (k : A → M B) st b st' :
  bind c k st = Val b st' → ∃ a st1, c st = Val a st1 ∧ k a st1 = Val b st'.
Proof. unfold bind. destruct (c st) as [a st1|]; [eauto | done]. Qed.

Tactic Notation "inv_bind" hyp(H) "as" simple_intropattern(a) ident(H1) :=
  apply bind_Val in H as (a & ? & H1 & H).

Ltac inv_ret H := unfold ret in H; simplify_eq.

(** ** The reference transformer *)

Section TransformerFacts.
Variable host : StaticSymbolResolverHost.
Variable errorRecorder : bool.
Variable sourceSymbol : StaticSymbol.

#[local] Abbreviation visit := (visitValue host errorRecorder sourceSymbol).
#[local] Abbreviation visitArr := (visitArray host errorRecorder sourceSymbol).
#[local] Abbreviation visitEnt := (visitEntries host errorRecorder sourceSymbol).
#[local] Abbreviation superMap := (super_visitStringMap host errorRecorder sourceSymbol).

Lemma visitValue_arr arr fp :
  visit (VArr arr) fp =
  (let* (result, fp') := visitArr arr fp in ret (VArr result, fp')).
Proof. reflexivity. Qed.

Lemma visitValue_function map fp :
  is_function map = true →
  visit (VObj map) fp =
  (let* pushed := spread (parameters_or_empty map) in
   let* (result, fp') := superMap map (fp ++ pushed) in
   ret (result, take (length fp) fp')).
Proof. intros H. simpl. rewrite H. reflexivity. Qed.

Lemma visitValue_plain map fp :
  is_function map = false → is_reference map = false →
  visit (VObj map) fp = superMap map fp.
Proof. intros H1 H2. simpl. rewrite H1, H2. reflexivity. Qed.

Lemma is_reference_not_function map :
  is_reference map = true → is_function map = false.
Proof.
  unfold is_reference, is_function.
  destruct (obj_get map "__symbolic"); simpl; try done.
  intros H%bool_decide_eq_true. by subst.
Qed.

(** A reference to a name in scope stays a lexical marker. *)
Lemma visitValue_local_parameter d name fp st :
  local_reference d name →
  existsb (λ p, strict_eq p name) fp = true →
  visit d fp st = Val (lexical_marker name, fp) st.
Proof.
  intros (map & -> & Href & Hmod & Hname & Htr) Hin.
  simpl. rewrite (is_reference_not_function _ Href), Href, Hname, Htr, Hmod.
  simpl. rewrite Hin. reflexivity.
Qed.

(** A reference to a name that is not in scope becomes the handle of that
    name in the current file. *)
Lemma visitValue_module_scope d name fp st :
  local_reference d name →
  existsb (λ p, strict_eq p name) fp = false →
  filePath sourceSymbol ≠ "" →
  visit d fp st =
  Val (VSym (getStaticSymbol (filePath sourceSymbol) (js_string name) None), fp) st.
Proof.
  intros (map & -> & Href & Hmod & Hname & Htr) Hin Hfile.
  simpl. rewrite (is_reference_not_function _ Href), Href, Hname, Htr, Hmod.
  simpl. rewrite Hin. simpl. by rewrite bool_decide_eq_false_2.
Qed.

(** A module specifier for which the host answers with no path. *)
Lemma visitValue_unresolved d module name p fp st :
  module_reference d module name →
  moduleNameToFileName host (js_string module) (filePath sourceSymbol) = Returns p →
  path_truthy p = false →
  visit d fp st = Val (error_marker module (filePath sourceSymbol), fp) st.
Proof.
  intros (map & -> & Href & Hmod & Hmt & Hname & Htr) Hhost Hp.
  simpl. rewrite (is_reference_not_function _ Href), Href, Hname, Htr, Hmod, Hmt.
  simpl. unfold resolveModule. rewrite Hhost.
  unfold bind, ret. rewrite Hp. reflexivity.
Qed.

Lemma visitValue_resolved d module name p fp st :
  module_reference d module name →
  moduleNameToFileName host (js_string module) (filePath sourceSymbol) = Returns (Some p) →
  p ≠ "" →
  visit d fp st = Val (VSym (getStaticSymbol p (js_string name) None), fp) st.
Proof.
  intros (map & -> & Href & Hmod & Hmt & Hname & Htr) Hhost Hp.
  simpl. rewrite (is_reference_not_function _ Href), Href, Hname, Htr, Hmod, Hmt.
  simpl. unfold resolveModule. rewrite Hhost.
  unfold bind, ret. simpl. by rewrite bool_decide_eq_false_2.
Qed.

(** A module specifier on which the host throws: the [catch] block of
    [resolveModule] writes to the console and then fails on [new e]. *)
Lemma visitValue_host_throws d module name e fp st :
  module_reference d module name →
  moduleNameToFileName host (js_string module) (filePath sourceSymbol) = Throws e →
  ∃ st', visit d fp st = Exn (JsTypeError "e is not a constructor") st'.
Proof.
  intros (map & -> & Href & Hmod & Hmt & Hname & Htr) Hhost.
  simpl. rewrite (is_reference_not_function _ Href), Href, Hname, Htr, Hmod, Hmt.
  simpl. unfold resolveModule. rewrite Hhost.
  unfold bind, ret, console_error, js_new, raise. eauto.
Qed.

(** *** The scope is restored *)

Lemma visitArray_scope arr :
  Forall (λ v, ∀ fp st v' fp' st', visit v fp st = Val (v', fp') st' → fp' = fp) arr →
  ∀ fp st r fp' st', visitArr arr fp st = Val (r, fp') st' → fp' = fp.
Proof.
  induction 1 as [|x arr Hx _ IH]; intros fp st r fp' st' H; simpl in H.
  - by inv_ret H.
  - inv_bind H as [x' fp1] Hx'. inv_bind H as [rest' fp2] Hrest.
    inv_ret H. apply Hx in Hx' as ->. by apply IH in Hrest.
Qed.

Lemma visitEntries_scope kvs :
  Forall (λ kv, ∀ fp st v' fp' st', visit kv.2 fp st = Val (v', fp') st' → fp' = fp) kvs →
  ∀ fp st r fp' st', visitEnt kvs fp st = Val (r, fp') st' → fp' = fp.
Proof.
  induction 1 as [|[k x] kvs Hx _ IH]; intros fp st r fp' st' H; simpl in H.
  - by inv_ret H.
  - inv_bind H as [x' fp1] Hx'. inv_bind H as [rest' fp2] Hrest.
    inv_ret H. apply Hx in Hx' as ->. by apply IH in Hrest.
Qed.

Lemma visitValue_scope v :
  ∀ fp st v' fp' st', visit v fp st = Val (v', fp') st' → fp' = fp.
Proof.
  induction v as [| |b|n|s|xs IH|kvs IH|s] using value_ind;
    intros fp st v' fp' st' H;
    try (simpl in H; by inv_ret H).
  - rewrite visitValue_arr in H. inv_bind H as [r fp1] Hr.
    inv_ret H. eapply visitArray_scope; eauto.
  - destruct (is_function kvs) eqn:Hf.
    + rewrite visitValue_function in H by done.
      inv_bind H as pushed Hp. inv_bind H as [r fp1] Hr. inv_ret H.
      unfold super_visitStringMap in Hr. inv_bind Hr as [r' fp2] He.
      inv_ret Hr.
      eapply visitEntries_scope in He; [|done]. subst.
      by rewrite take_app_length.
    + destruct (is_reference kvs) eqn:Hr.
      * simpl in H. rewrite Hf, Hr in H.
        repeat match type of H with
        | (if ?c then _ else _) _ = _ => destruct c
        | bind _ _ _ = _ => apply bind_Val in H as (? & ? & ? & H)
        end; by inv_ret H.
      * rewrite visitValue_plain in H by done.
        unfold super_visitStringMap in H. inv_bind H as [r' fp2] He.
        inv_ret H. eapply visitEntries_scope in He; done.
Qed.

(** *** Children are visited in the scope [enter] gives *)

Lemma visitArray_child arr :
  ∀ fp st r fp' st' i c,
    visitArr arr fp st = Val (r, fp') st' →
    arr !! i = Some c →
    ∃ c' st1 st2, r !! i = Some c' ∧ visit c fp st1 = Val (c', fp) st2.
Proof.
  induction arr as [|x arr IH]; intros fp st r fp' st' i c H Hi; [done|].
  simpl in H. inv_bind H as [x' fp1] Hx. inv_bind H as [rest' fp2] Hrest.
  inv_ret H.
  pose proof (visitValue_scope _ _ _ _ _ _ Hx) as ->.
  destruct i as [|i]; simpl in *.
  - simplify_eq. eauto.
  - eapply IH in Hrest as (c' & s1 & s2 & ? & ?); eauto.
Qed.

Lemma visitEntries_child kvs :
  ∀ fp st r fp' st' k c,
    visitEnt kvs fp st = Val (r, fp') st' →
    obj_find kvs k = Some c →
    ∃ c' st1 st2, obj_find r k = Some c' ∧ visit c fp st1 = Val (c', fp) st2.
Proof.
  induction kvs as [|[k0 x] kvs IH]; intros fp st r fp' st' k c H Hk; [done|].
  simpl in H. inv_bind H as [x' fp1] Hx. inv_bind H as [rest' fp2] Hrest.
  inv_ret H.
  pose proof (visitValue_scope _ _ _ _ _ _ Hx) as ->.
  simpl in *. case_bool_decide.
  - simplify_eq. eauto.
  - eapply IH in Hrest as (c' & s1 & s2 & ? & ?); eauto.
Qed.

Lemma visitValue_child v fp fp1 s c st v' fp' st' :
  visit v fp st = Val (v', fp') st' →
  enter v fp = Some fp1 →
  child v s = Some c →
  ∃ c' st1 st2, child v' s = Some c' ∧ visit c fp1 st1 = Val (c', fp1) st2.
Proof.
  intros H He Hc. destruct v as [| | | | |xs|kvs|]; try done.
  - destruct s as [|i]; [done|]. simpl in He, Hc. simplify_eq.
    rewrite visitValue_arr in H. inv_bind H as [r fp2] Hr. inv_ret H.
    eapply visitArray_child in Hr as (c' & s1 & s2 & ? & ?); eauto.
  - destruct s as [k|]; [|done]. simpl in He, Hc.
    destruct (is_function kvs) eqn:Hf.
    + rewrite visitValue_function in H by done.
      inv_bind H as pushed Hp. unfold spread in Hp.
      destruct (iterate (parameters_or_empty kvs)) as [ps|]; [|done].
      inv_ret Hp. simpl in He. simplify_eq.
      inv_bind H as [r fp2] Hr. inv_ret H.
      unfold super_visitStringMap in Hr. inv_bind Hr as [r' fp3] Hent.
      inv_ret Hr.
      eapply visitEntries_child in Hent as (c' & s1 & s2 & ? & ?); eauto.
    + destruct (is_reference kvs) eqn:Hr; [done|]. simplify_eq.
      rewrite visitValue_plain in H by done.
      unfold super_visitStringMap in H. inv_bind H as [r' fp3] Hent.
      inv_ret H.
      eapply visitEntries_child in Hent as (c' & s1 & s2 & ? & ?); eauto.
Qed.

(** The transformed tree has, at every position the visit reaches, the
    transform of the node found there, computed in the scope in force. *)
Lemma visitValue_at v fp p d fpd :
  visits_at v fp p d fpd →
  ∀ st v' fp' st',
    visit v fp st = Val (v', fp') st' →
    ∃ d' st1 st2, get_path v' p = Some d' ∧ visit d fpd st1 = Val (d', fpd) st2.
Proof.
  induction 1 as [v fp|v fp fp1 s c p d fpd He Hc _ IH]; intros st v' fp' st' H.
  - pose proof (visitValue_scope _ _ _ _ _ _ H) as ->. simpl. eauto.
  - destruct (visitValue_child _ _ _ _ _ _ _ _ _ H He Hc) as (c' & s1 & s2 & Hc' & Hv).
    destruct (IH _ _ _ _ Hv) as (d' & s3 & s4 & Hd & Hvd).
    exists d', s3, s4. simpl. rewrite Hc'. auto.
Qed.

Lemma visits_at_scope_grows v fp p d fpd :
  visits_at v fp p d fpd → ∃ more, fpd = fp ++ more.
Proof.
  induction 1 as [v fp|v fp fp1 s c p d fpd He Hc _ [more ->]].
  - exists []. by rewrite app_nil_r.
  - destruct v; try done; simpl in He.
    + simplify_eq. eauto.
    + destruct (is_function kvs).
      * destruct (iterate _) as [ps|]; [|done]. simpl in He. simplify_eq.
        exists (ps ++ more). by rewrite app_assoc.
      * destruct (is_reference kvs); [done|]. simplify_eq. eauto.
Qed.

(** *** The transformer returns on well-formed input *)

Lemma iterable_parameters_arr xs :
  iterable_parameters (VArr xs) = true →
  Forall (λ x, iterable_parameters x = true) xs.
Proof.
  simpl. induction xs as [|x xs IH]; [constructor|].
  intros [H1 H2]%andb_true_iff. constructor; auto.
Qed.

Lemma iterable_parameters_obj kvs :
  iterable_parameters (VObj kvs) = true →
  (is_function kvs = true → is_Some (iterate (parameters_or_empty kvs))) ∧
  Forall (λ kv, iterable_parameters kv.2 = true) kvs.
Proof.
  simpl. intros [H1 H2]%andb_true_iff. split.
  - intros Hf. rewrite Hf in H1. by apply bool_decide_eq_true in H1.
  - clear H1. induction kvs as [|[k x] kvs IH]; [constructor|].
    apply andb_true_iff in H2 as [H1 H2]. constructor; auto.
Qed.

Hypothesis host_never_throws : never_throws host.

Lemma resolveModule_returns module containingFile :
  ∃ p, ∀ st, resolveModule host errorRecorder module containingFile st = Val p st.
Proof.
  unfold resolveModule.
  destruct (host_never_throws module containingFile) as [p ->]. by exists p.
Qed.

Lemma visitArray_returns arr :
  Forall (λ v, iterable_parameters v = true →
               ∀ fp, ∃ v', ∀ st, visit v fp st = Val (v', fp) st) arr →
  Forall (λ x, iterable_parameters x = true) arr →
  ∀ fp, ∃ r, ∀ st, visitArr arr fp st = Val (r, fp) st.
Proof.
  induction 1 as [|x arr Hx _ IH]; intros Hwf fp; simpl; [by eexists|].
  apply Forall_cons in Hwf as [Hwx Hwf].
  destruct (Hx Hwx fp) as [x' Hx'].
  destruct (IH Hwf fp) as [r Hr].
  exists (x' :: r). intros st. unfold bind. by rewrite Hx', Hr.
Qed.

Lemma visitEntries_returns kvs :
  Forall (λ kv, iterable_parameters kv.2 = true →
                ∀ fp, ∃ v', ∀ st, visit kv.2 fp st = Val (v', fp) st) kvs →
  Forall (λ kv, iterable_parameters kv.2 = true) kvs →
  ∀ fp, ∃ r, ∀ st, visitEnt kvs fp st = Val (r, fp) st.
Proof.
  induction 1 as [|[k x] kvs Hx _ IH]; intros Hwf fp; simpl; [by eexists|].
  apply Forall_cons in Hwf as [Hwx Hwf].
  destruct (Hx Hwx fp) as [x' Hx'].
  destruct (IH Hwf fp) as [r Hr]. simpl in Hx'.
  exists ((k, x') :: r). intros st. unfold bind. by rewrite Hx', Hr.
Qed.

(** On a host that never throws and a tree whose function nodes have
    iterable parameter lists, the transformer returns; the result does not
    depend on the state, which it leaves as it is. *)
Lemma visitValue_returns v :
  iterable_parameters v = true →
  ∀ fp, ∃ v', ∀ st, visit v fp st = Val (v', fp) st.
Proof.
  induction v as [| |b|n|s|xs IH|kvs IH|s] using value_ind;
    intros Hwf fp; try (by eexists).
  - apply iterable_parameters_arr in Hwf.
    destruct (visitArray_returns _ IH Hwf fp) as [r Hr].
    exists (VArr r). intros st. rewrite visitValue_arr. unfold bind. by rewrite Hr.
  - apply iterable_parameters_obj in Hwf as [Hpar Hwf].
    destruct (is_function kvs) eqn:Hf.
    + destruct (Hpar eq_refl) as [ps Hps].
      destruct (visitEntries_returns _ IH Hwf (fp ++ ps)) as [r Hr].
      exists (VObj r). intros st. rewrite visitValue_function by done.
      unfold bind, spread, super_visitStringMap, bind. rewrite Hps. simpl.
      rewrite Hr. unfold ret. by rewrite take_app_length.
    + destruct (is_reference kvs) eqn:Href.
      * simpl. rewrite Hf, Href.
        destruct (truthy (obj_get kvs "name")); simpl; [|by eexists].
        destruct (truthy (obj_get kvs "module")).
        -- destruct (resolveModule_returns (js_string (obj_get kvs "module"))
                       (filePath sourceSymbol)) as [p Hp].
           destruct (path_truthy p) eqn:Hpt.
           ++ eexists. intros st. unfold bind. rewrite Hp, Hpt. reflexivity.
           ++ eexists. intros st. unfold bind. rewrite Hp, Hpt. reflexivity.
        -- destruct (existsb _ fp); simpl; [by eexists|].
           destruct (bool_decide _); simpl; by eexists.
      * destruct (visitEntries_returns _ IH Hwf fp) as [r Hr].
        exists (VObj r). intros st. rewrite visitValue_plain by done.
        unfold super_visitStringMap, bind. by rewrite Hr.
Qed.

End TransformerFacts.

Section TransformerClaims.
Variable host : StaticSymbolResolverHost.
Variable errorRecorder : bool.
Variable sourceSymbol : StaticSymbol.

#[local] Abbreviation visit' := (visitValue host errorRecorder sourceSymbol).

(** C3.  Whenever the transformer returns from a node [v]: the scope it
    hands back is the scope it was given (so a function node, nested or
    not, leaves the enclosing scope as it found it); and for a reference
    node [d] without module specifier that the visit reaches at position
    [p] of [v]: if [v] is a function node that declares the name of [d]
    among its parameters, the transformed tree holds the lexical marker of
    that name at [p], not a handle; if no parameter is in scope at [d]
    (outside every function body), it holds the interned handle
    (current file, name). *)
Theorem function_parameters_stay_lexical v fp st v' fp' st' :
  visit' v fp st = Val (v', fp') st' →
  fp' = fp ∧
  ∀ p d fpd name,
    visits_at v fp p d fpd →
    local_reference d name →
    ((∃ map ps, v = VObj map ∧ is_function map = true ∧ p ≠ [] ∧
                iterate (parameters_or_empty map) = Some ps ∧
                existsb (λ q, strict_eq q name) ps = true) →
     get_path v' p = Some (lexical_marker name)) ∧
    (fpd = [] → filePath sourceSymbol ≠ "" →
     get_path v' p =
     Some (VSym (getStaticSymbol (filePath sourceSymbol) (js_string name) None))).
Proof.
  intros H. split; [by eapply visitValue_scope|].
  intros p d fpd name Hat Hd.
  destruct (visitValue_at _ _ _ _ _ _ _ _ Hat _ _ _ _ H) as (d' & s1 & s2 & Hp & Hv).
  split.
  - intros (map & ps & -> & Hf & Hne & Hps & Hin).
    inversion Hat as [|? ? fp1 s c p' ? ? He Hc Hrest]; subst; [done|].
    simpl in He. rewrite Hf, Hps in He. simpl in He. simplify_eq.
    apply visits_at_scope_grows in Hrest as [more ->].
    rewrite (visitValue_local_parameter _ _ _ _ _ _ _ Hd) in Hv.
    + by simplify_eq.
    + rewrite !existsb_app, Hin. by rewrite orb_true_r.
  - intros -> Hfile.
    rewrite (visitValue_module_scope _ _ _ _ _ _ _ Hd) in Hv by done.
    by simplify_eq.
Qed.

(** C6, as amended.  Let [d] be a reference node with a name and a module
    specifier.  If the host answers the specifier with no file path, the
    transformer returns the error marker naming the specifier and the
    current file, leaving resolver state and scope untouched; any enclosing
    transform that returns holds that marker at the position of [d]; and
    on a host that never throws, an enclosing transform of a tree whose
    function nodes have iterable parameter lists does return.  If the host
    throws on the specifier and no error recorder is configured, every
    transform that reaches [d] raises. *)
Theorem unresolved_module_becomes_error_marker d module name :
  module_reference d module name →
  (∀ q,
     moduleNameToFileName host (js_string module) (filePath sourceSymbol) = Returns q →
     path_truthy q = false →
     (∀ fp st,
        visit' d fp st = Val (error_marker module (filePath sourceSymbol), fp) st) ∧
     (∀ v fp p fpd st v' fp' st',
        visits_at v fp p d fpd →
        visit' v fp st = Val (v', fp') st' →
        get_path v' p = Some (error_marker module (filePath sourceSymbol))) ∧
     (never_throws host →
      ∀ v fp, iterable_parameters v = true →
              ∃ v', ∀ st, visit' v fp st = Val (v', fp) st)) ∧
  (∀ e,
     moduleNameToFileName host (js_string module) (filePath sourceSymbol) = Throws e →
     errorRecorder = false →
     ∀ v fp p fpd st,
       visits_at v fp p d fpd → ∃ e' st', visit' v fp st = Exn e' st').
Proof.
  intros Hd. split.
  - intros q Hhost Hq. split_and!.
    + intros fp st. by eapply visitValue_unresolved.
    + intros v fp p fpd st v' fp' st' Hat H.
      destruct (visitValue_at _ _ _ _ _ _ _ _ Hat _ _ _ _ H)
        as (d' & s1 & s2 & Hp & Hv).
      rewrite (visitValue_unresolved _ _ _ _ _ _ _ _ _ Hd Hhost Hq) in Hv.
      by simplify_eq.
    + intros Hnt v fp Hwf. by apply visitValue_returns.
  - intros e Hhost _ v fp p fpd st Hat.
    destruct (visit' v fp st) as [[v' fp'] st'|e' st'] eqn:H; [|by eauto].
    destruct (visitValue_at _ _ _ _ _ _ _ _ Hat _ _ _ _ H)
      as (d' & s1 & s2 & Hp & Hv).
    destruct (visitValue_host_throws host errorRecorder sourceSymbol d module name
                e fpd s1 Hd Hhost) as [s3 Hx].
    congruence.
Qed.

End TransformerClaims.

Lemma function_parameters_stay_lexical_witness :
  ∃ v', visitValue Example.host_null false Example.here Example.fn_node []
          new_resolver = Val (v', []) new_resolver ∧
        get_path v' [Key "value"] = Some (lexical_marker (VStr "x")) ∧
        visitValue Example.host_null false Example.here (Example.ref "x") []
          new_resolver
        = Val (VSym (mkStaticSymbol "/app/a" "x" []), []) new_resolver.
Proof.
  eexists. split; [reflexivity|].
  pose proof (function_parameters_stay_lexical Example.host_null false Example.here
                Example.fn_node [] new_resolver _ _ _ eq_refl) as [_ H].
  split.
  - refine (proj1 (H [Key "value"] (Example.ref "x") [VStr "x"] (VStr "x") _ _) _).
    + eapply visits_down; [reflexivity|reflexivity|apply visits_here].
    + eexists. repeat split; reflexivity.
    + eexists _, _. repeat split; try reflexivity. done.
  - reflexivity.
Defined.

Lemma unresolved_module_becomes_error_marker_witness :
  moduleNameToFileName Example.host_null "./missing" "/app/a" = Returns None ∧
  ∀ fp st,
    visitValue Example.host_null false Example.here
      (Example.ref_from "./missing" "X") fp st
    = Val (VObj [("__symbolic", VStr "error");
                 ("message", VStr "Could not resolve ./missing relative to /app/a.")],
           fp) st.
Proof.
  split; [reflexivity|].
  refine (proj1 (proj1 (unresolved_module_becomes_error_marker Example.host_null
                          false Example.here (Example.ref_from "./missing" "X")
                          (VStr "./missing") (VStr "X") _)
                   None eq_refl eq_refl)).
  eexists. repeat split; reflexivity.
Defined.

(** C6, as stated, fails when the host throws on the specifier and no
    error recorder is configured: the transform of the enclosing array
    aborts, and the sibling is never visited. *)
Lemma unresolved_module_can_abort :
  visitValue Example.host_throwing false Example.here
    (VArr [Example.ref_from "./missing" "X"; VNum 1]) [] new_resolver
  = Exn (JsTypeError "e is not a constructor")
      (log_console "Could not resolve module './missing' relative to file /app/a"
         new_resolver).
Proof. reflexivity. Qed.

(** ** Invariants of the evolution *)

(** A file once marked stays marked. *)
Lemma evolves_resolvedFilePaths st st' :
  evolves st st' → resolvedFilePaths st ⊆ resolvedFilePaths st'.
Proof.
  induction 1 as [|st st1 st2 Hm _ IH]; [done|].
  etrans; [|exact IH]. destruct Hm; simpl; set_solver.
Qed.


Lemma map_set_Forall {K V} `{EqDecision K} (P : K * V → Prop) k v m :
  Forall P m → P (k, v) → Forall P (map_set k v m).
Proof.
  intros Hm Hkv. induction Hm as [|[k' v'] m Hx Hm IH]; simpl.
  - by repeat constructor.
  - case_decide; by constructor.
Qed.

(** The cache of resolved symbols stays keyed by handles with an empty
    member path. *)
Lemma evolves_cache_ok st st' : evolves st st' → cache_ok st → cache_ok st'.
Proof.
  induction 1 as [|st st1 st2 Hm _ IH]; [done|].
  intros Hok. apply IH. destruct Hm; try done.
  unfold cache_ok. simpl. by apply map_set_Forall.
Qed.

Lemma cache_ok_new : cache_ok new_resolver.
Proof. constructor. Qed.

(** ** Evolution of the state *)

Lemma runs_ret {A} (a : A) (Q : A → Prop) : Q a → runs (ret a) Q.
Proof. intros HQ st. simpl. split; [apply rtc_refl | done]. Qed.

Lemma runs_raise {A} e (Q : A → Prop) : runs (raise e) Q.
Proof. intros st. apply rtc_refl. Qed.

Lemma runs_bind {A B} (c : M A) (k : A → M B) Q1 Q2 :
  runs c Q1 → (∀ a, Q1 a → runs (k a) Q2) → runs (bind c k) Q2.
Proof.
  intros Hc Hk st. unfold bind. specialize (Hc st).
  destruct (c st) as [a st1|e st1]; [|done].
  destruct Hc as [Hev Ha]. specialize (Hk a Ha st1).
  destruct (k a st1) as [b st2|e st2].
  - destruct Hk. split; [by etrans | done].
  - by etrans.
Qed.

Lemma runs_foldM {A B} (f : B → A → M B) (I : B → Prop) l :
  (∀ acc x, x ∈ l → I acc → runs (f acc x) I) →
  ∀ acc, I acc → runs (foldM f l acc) I.
Proof.
  induction l as [|x l IH]; intros Hf acc Hacc; simpl.
  - by apply runs_ret.
  - eapply runs_bind.
    + apply Hf; [left | done].
    + intros acc' Hacc'. apply IH; [|done].
      intros ? ? ?. apply Hf. by right.
Qed.

Lemma specF_ret {A} T P (a : A) (Q : A → Prop) : Q a → specF T P (retF a) Q.
Proof. intros HQ st _. simpl. split; [apply rtc_refl | done]. Qed.

Lemma specF_lift {A} T P (c : M A) Q : runs c Q → specF T P (lift c) Q.
Proof. intros Hc st _. apply Hc. Qed.

Lemma specF_bind {A B} T P (c : MF A) (k : A → MF B) Q1 Q2 :
  stable P →
  specF T P c Q1 → (∀ a, Q1 a → specF T P (k a) Q2) → specF T P (bindF c k) Q2.
Proof.
  intros HP Hc Hk st Hst. unfold bindF. specialize (Hc st Hst).
  destruct (c st) as [[a st1|e st1]|]; [|done..].
  destruct Hc as [Hev Ha]. specialize (Hk a Ha st1 (HP _ _ Hst Hev)).
  destruct (k a st1) as [[b st2|e st2]|]; [| |done].
  - destruct Hk. split; [by etrans | done].
  - by etrans.
Qed.

Lemma specF_foldMF {A B} T P (f : B → A → MF B) (I : B → Prop) l :
  stable P →
  (∀ acc x, x ∈ l → I acc → specF T P (f acc x) I) →
  ∀ acc, I acc → specF T P (foldMF f l acc) I.
Proof.
  intros HP. induction l as [|x l IH]; intros Hf acc Hacc; simpl.
  - by apply specF_ret.
  - eapply specF_bind; [done| |].
    + apply Hf; [left | done].
    + intros acc' Hacc'. apply IH; [|done].
      intros ? ? ?. apply Hf. by right.
Qed.

Lemma stable_True : stable (λ _, True).
Proof. done. Qed.

Lemma register_all_evolves acc st :
  Forall (λ rs, members (rs_symbol rs) = []) acc →
  evolves st (fold_left (λ st rs, register rs st) acc st).
Proof.
  intros H. revert st. induction H as [|rs acc Hrs _ IH]; intros st; simpl.
  - apply rtc_refl.
  - etrans; [apply rtc_once, mut_register, Hrs | apply IH].
Qed.

Section Evolution.
Variable host : StaticSymbolResolverHost.
Variable summaryResolver : SummaryResolver.
Variable errorRecorder : bool.

Lemma console_error_runs line : runs (console_error line) (λ _, True).
Proof. intros st. simpl. split; [|done]. apply rtc_once, mut_console. Qed.

Lemma reportError_runs e context path :
  runs (reportError errorRecorder e context path) (λ _, True).
Proof.
  unfold reportError. destruct errorRecorder.
  - intros st. split; [|done]. apply rtc_once, mut_record.
  - apply runs_raise.
Qed.

(** A path returned by [resolveModule] is the host's answer. *)
Lemma resolveModule_runs module containingFile :
  runs (resolveModule host errorRecorder module containingFile)
    (λ p, moduleNameToFileName host module containingFile = Returns p).
Proof.
  unfold resolveModule. destruct (moduleNameToFileName _ _ _) as [p|e].
  - by apply runs_ret.
  - eapply runs_bind; [apply console_error_runs|]. intros _ _.
    eapply (runs_bind _ _ (λ _, False)); [apply runs_raise|]. by intros.
Qed.

Lemma getModuleMetadata_runs module :
  runs (getModuleMetadata host errorRecorder module) (λ _, True).
Proof.
  intros st. unfold getModuleMetadata.
  destruct (metadataCache st !! module) eqn:Hc; [split; [apply rtc_refl|done]|].
  set (md := default _ _).
  assert (Hstore : ∀ st1, metadataCache st1 = metadataCache st →
            evolves st1 (store_metadata module md st1)).
  { intros st1 Heq. apply rtc_once, mut_store. by rewrite Heq. }
  unfold bind. case_bool_decide.
  - unfold reportError. destruct errorRecorder; simpl.
    + split; [|done]. etrans; [apply rtc_once, mut_record|]. by apply Hstore.
    + apply rtc_refl.
  - simpl. split; [|done]. by apply Hstore.
Qed.

Lemma visitArray_runs sourceSymbol arr :
  Forall (λ v, ∀ fp, runs (visitValue host errorRecorder sourceSymbol v fp) (λ _, True)) arr →
  ∀ fp, runs (visitArray host errorRecorder sourceSymbol arr fp) (λ _, True).
Proof.
  induction 1 as [|x arr Hx _ IH]; intros fp; simpl; [by apply runs_ret|].
  eapply runs_bind; [apply Hx|]. intros [x' fp1] _.
  eapply runs_bind; [apply IH|]. intros [r fp2] _. by apply runs_ret.
Qed.

Lemma visitEntries_runs sourceSymbol kvs :
  Forall (λ kv, ∀ fp, runs (visitValue host errorRecorder sourceSymbol kv.2 fp) (λ _, True)) kvs →
  ∀ fp, runs (visitEntries host errorRecorder sourceSymbol kvs fp) (λ _, True).
Proof.
  induction 1 as [|[k x] kvs Hx _ IH]; intros fp; simpl; [by apply runs_ret|].
  eapply runs_bind; [apply Hx|]. intros [x' fp1] _.
  eapply runs_bind; [apply IH|]. intros [r fp2] _. by apply runs_ret.
Qed.

Lemma visitValue_runs sourceSymbol v :
  ∀ fp, runs (visitValue host errorRecorder sourceSymbol v fp) (λ _, True).
Proof.
  induction v as [| |b|n|s|xs IH|kvs IH|s] using value_ind; intros fp;
    try (by apply runs_ret).
  - rewrite visitValue_arr.
    eapply runs_bind; [by apply visitArray_runs|]. intros [r fp1] _.
    by apply runs_ret.
  - assert (Hsuper : ∀ fp, runs (super_visitStringMap host errorRecorder sourceSymbol kvs fp)
                             (λ _, True)).
    { intros fp0. unfold super_visitStringMap.
      eapply runs_bind; [by apply visitEntries_runs|]. intros [r fp1] _.
      by apply runs_ret. }
    destruct (is_function kvs) eqn:Hf.
    + rewrite visitValue_function by done.
      eapply (runs_bind _ _ (λ _, True)).
      { unfold spread. destruct (iterate _); [by apply runs_ret | apply runs_raise]. }
      intros ps _. eapply runs_bind; [apply Hsuper|]. intros [r fp1] _.
      by apply runs_ret.
    + destruct (is_reference kvs) eqn:Hr.
      * simpl. rewrite Hf, Hr.
        destruct (truthy (obj_get kvs "name")); simpl; [|by apply runs_ret].
        destruct (truthy (obj_get kvs "module")).
        -- eapply runs_bind; [apply resolveModule_runs|]. intros p _.
           destruct (path_truthy p); simpl; by apply runs_ret.
        -- destruct (path_truthy _); by apply runs_ret.
      * rewrite visitValue_plain by done. apply Hsuper.
Qed.

Lemma createResolvedSymbol_runs sourceSymbol metadata' :
  runs (createResolvedSymbol host errorRecorder sourceSymbol metadata')
    (λ rs, rs_symbol rs = sourceSymbol).
Proof.
  unfold createResolvedSymbol.
  eapply runs_bind; [apply visitValue_runs|]. intros [v fp] _.
  by apply runs_ret.
Qed.

Lemma path_truthy_Some p : path_truthy p = true → p = Some (default "" p).
Proof. by destruct p. Qed.

(** The part of the walker after the mark, given what the recursive
    [getSymbolsOf] does on the files the host resolves to. *)
Lemma _createSymbolsOf_unresolved_spec T P getSymbolsOf' filePath' :
  stable P →
  (∀ f, resolved_by host f → specF T P (getSymbolsOf' f) (λ _, True)) →
  specF T P (_createSymbolsOf_unresolved host errorRecorder getSymbolsOf' filePath')
    (λ _, True).
Proof.
  intros HP Hrec. unfold _createSymbolsOf_unresolved.
  eapply specF_bind; [done|apply specF_lift, getModuleMetadata_runs|].
  intros md _.
  eapply (specF_bind _ _ _ _ (entries_of filePath')); [done| |].
  { apply specF_lift. unfold declaredSymbols.
    destruct (metadata md) as [declarations|]; [|apply runs_ret; constructor].
    apply runs_foldM; [|constructor].
    intros acc symbolName _ Hacc.
    eapply runs_bind; [apply createResolvedSymbol_runs|].
    intros r Hr. apply runs_ret. apply Forall_app. split; [done|].
    constructor; [|constructor]. by rewrite Hr. }
  intros acc Hacc.
  eapply (specF_bind _ _ _ _ (entries_of filePath')); [done| |].
  { unfold exportedSymbols.
    destruct (exports md) as [exports'|]; [|by apply specF_ret].
    apply specF_foldMF; [done| |done].
    clear acc Hacc. intros acc moduleExport _ Hacc.
    destruct (export moduleExport) as [exportSymbols|].
    - apply specF_lift, runs_foldM; [|done].
      clear acc Hacc. intros acc exportSymbol _ Hacc.
      eapply runs_bind; [apply resolveModule_runs|]. intros p _.
      destruct (path_truthy p); apply runs_ret; [|done].
      apply Forall_app. split; [done|]. by repeat constructor.
    - eapply specF_bind; [done|apply specF_lift, resolveModule_runs|].
      intros p Hp.
      destruct (path_truthy p) eqn:Htr; [|by apply specF_ret].
      eapply specF_bind; [done| |].
      + apply Hrec. eexists _, _. by rewrite Hp, (path_truthy_Some _ Htr).
      + intros nested _.
        apply specF_ret. apply Forall_app. split; [done|].
        apply Forall_fmap, Forall_forall. by intros. }
  clear acc Hacc. intros acc Hacc st0 _. split; [|done].
  apply register_all_evolves. eapply Forall_impl; [exact Hacc|]. by intros ? [].
Qed.

Lemma getSymbolsOf_with_spec T P walker filePath' :
  stable P →
  specF T P (walker filePath') (λ _, True) →
  specF T P (getSymbolsOf_with summaryResolver walker filePath') (λ _, True).
Proof.
  intros HP Hw. unfold getSymbolsOf_with.
  eapply specF_bind; [done|apply Hw|]. intros _ _ st _. split; [apply rtc_refl|done].
Qed.

(** The walker, entered on a file that is not marked yet, marks it and
    goes on with the rest. *)
Lemma _createSymbolsOf_body_unmarked getSymbolsOf' filePath' st :
  filePath' ∉ resolvedFilePaths st →
  _createSymbolsOf_body host errorRecorder getSymbolsOf' filePath' st =
  _createSymbolsOf_unresolved host errorRecorder getSymbolsOf' filePath'
    (mark_resolved filePath' st).
Proof. intros H. unfold _createSymbolsOf_body. by rewrite bool_decide_eq_false_2. Qed.

(** Entered on a marked file, it returns at once. *)
Lemma _createSymbolsOf_body_marked getSymbolsOf' filePath' st :
  filePath' ∈ resolvedFilePaths st →
  _createSymbolsOf_body host errorRecorder getSymbolsOf' filePath' st = Some (Val () st).
Proof. intros H. unfold _createSymbolsOf_body. by rewrite bool_decide_eq_true_2. Qed.

Lemma _createSymbolsOf_body_spec T (P0 P : state → Prop) getSymbolsOf' filePath' :
  stable P →
  (∀ st, P0 st → filePath' ∉ resolvedFilePaths st → P (mark_resolved filePath' st)) →
  (∀ f, resolved_by host f → specF T P (getSymbolsOf' f) (λ _, True)) →
  specF T P0 (_createSymbolsOf_body host errorRecorder getSymbolsOf' filePath')
    (λ _, True).
Proof.
  intros HP Hmark Hrec st Hst.
  destruct (decide (filePath' ∈ resolvedFilePaths st)) as [Hin|Hnin].
  - rewrite _createSymbolsOf_body_marked by done. split; [apply rtc_refl|done].
  - rewrite _createSymbolsOf_body_unmarked by done.
    pose proof (_createSymbolsOf_unresolved_spec T P getSymbolsOf' filePath' HP Hrec
                  _ (Hmark _ Hst Hnin)) as H.
    assert (Hm : evolves st (mark_resolved filePath' st))
      by apply rtc_once, mut_mark.
    destruct (_createSymbolsOf_unresolved _ _ _ _ _) as [[[] st'|e st']|]; [| |done].
    + destruct H. split; [by etrans|done].
    + by etrans.
Qed.

Lemma _createSymbolsOf_runs fuel :
  ∀ filePath',
    specF False (λ _, True)
      (_createSymbolsOf host summaryResolver errorRecorder fuel filePath') (λ _, True).
Proof.
  induction fuel as [|fuel IH]; intros f; [by intros st _ []|].
  simpl. apply (_createSymbolsOf_body_spec _ _ (λ _, True)); [done..|].
  intros f' _. by apply getSymbolsOf_with_spec.
Qed.

Lemma getSymbolsOf_runs fuel filePath' :
  specF False (λ _, True)
    (getSymbolsOf host summaryResolver errorRecorder fuel filePath') (λ _, True).
Proof. apply getSymbolsOf_with_spec; [done|]. apply _createSymbolsOf_runs. Qed.

(** A walker that returns has marked its file. *)
Lemma _createSymbolsOf_marks fuel filePath' st st' :
  _createSymbolsOf host summaryResolver errorRecorder fuel filePath' st
  = Some (Val () st') →
  filePath' ∈ resolvedFilePaths st'.
Proof.
  destruct fuel as [|fuel]; [done|]. simpl. intros H.
  destruct (decide (filePath' ∈ resolvedFilePaths st)) as [Hin|Hnin].
  - rewrite _createSymbolsOf_body_marked in H by done. by simplify_eq.
  - rewrite _createSymbolsOf_body_unmarked in H by done.
    pose proof (_createSymbolsOf_unresolved_spec False (λ _, True)
                  (getSymbolsOf_with summaryResolver
                     (_createSymbolsOf host summaryResolver errorRecorder fuel))
                  filePath' stable_True) as Hs.
    specialize (Hs (λ f _, getSymbolsOf_runs fuel f) (mark_resolved filePath' st) I).
    rewrite H in Hs. destruct Hs as [Hev _].
    apply evolves_resolvedFilePaths in Hev. simpl in Hev. set_solver.
Qed.

End Evolution.

(** ** The walker terminates on a finite project *)

Lemma size_unresolved_mark (U V : gset string) f :
  f ∈ U → f ∉ V → size (U ∖ ({[f]} ∪ V)) < size (U ∖ V).
Proof. intros HU HV. apply subset_size. set_solver. Qed.

Lemma size_unresolved_mono (U V V' : gset string) :
  V ⊆ V' → (size (U ∖ V') ≤ size (U ∖ V))%nat.
Proof. intros HV. apply subseteq_size. set_solver. Qed.

Section Termination.
Variable host : StaticSymbolResolverHost.
Variable summaryResolver : SummaryResolver.
Variable errorRecorder : bool.

(** The files of the project: every path the host resolves a module
    specifier to is one of them. *)
Variable U : gset string.
Hypothesis host_resolves_into_U : ∀ p, resolved_by host p → p ∈ U.

Lemma unresolved_stable n :
  stable (λ st, size (U ∖ resolvedFilePaths st) < n).
Proof.
  intros st st' Hst Hev.
  pose proof (size_unresolved_mono U _ _ (evolves_resolvedFilePaths _ _ Hev)). lia.
Qed.

Lemma _createSymbolsOf_total fuel :
  ∀ filePath', filePath' ∈ U →
    specF True (λ st, size (U ∖ resolvedFilePaths st) < fuel)
      (_createSymbolsOf host summaryResolver errorRecorder fuel filePath') (λ _, True).
Proof.
  induction fuel as [|fuel IH]; intros f Hf; [intros st Hst; lia|].
  simpl.
  apply (_createSymbolsOf_body_spec _ _ _ _
           (λ st, size (U ∖ resolvedFilePaths st) < fuel)).
  - apply unresolved_stable.
  - intros st Hst Hnin. simpl.
    pose proof (size_unresolved_mark U _ f Hf Hnin). lia.
  - intros f' Hf'. apply getSymbolsOf_with_spec; [apply unresolved_stable|].
    apply IH. by apply host_resolves_into_U.
Qed.

Lemma getSymbolsOf_total fuel filePath' :
  filePath' ∈ U →
  specF True (λ st, size (U ∖ resolvedFilePaths st) < fuel)
    (getSymbolsOf host summaryResolver errorRecorder fuel filePath') (λ _, True).
Proof.
  intros Hf. apply getSymbolsOf_with_spec; [apply unresolved_stable|].
  by apply _createSymbolsOf_total.
Qed.

End Termination.


(** ** What [getSymbolsOf] returns *)

Lemma elem_of_set_add {K} `{EqDecision K} (x y : K) s :
  y ∈ set_add x s ↔ y = x ∨ y ∈ s.
Proof.
  unfold set_add. case_decide.
  - split; [by right | by intros [->|]].
  - rewrite elem_of_app, list_elem_of_singleton. tauto.
Qed.

Lemma set_add_NoDup {K} `{EqDecision K} (x : K) s : NoDup s → NoDup (set_add x s).
Proof.
  intros Hs. unfold set_add. case_decide; [done|].
  apply NoDup_app. split_and!; [done| |apply NoDup_singleton].
  intros y Hy ->%list_elem_of_singleton. done.
Qed.

Lemma summary_set_spec (l : list StaticSymbol) acc :
  NoDup acc →
  NoDup (fold_left (λ symbols s, set_add s symbols) l acc) ∧
  ∀ s, s ∈ fold_left (λ symbols s, set_add s symbols) l acc ↔ s ∈ acc ∨ s ∈ l.
Proof.
  revert acc. induction l as [|x l IH]; intros acc Hacc; simpl.
  - split; [done|]. intros s. rewrite elem_of_nil. tauto.
  - destruct (IH (set_add x acc) (set_add_NoDup _ _ Hacc)) as [Hnd Hin].
    split; [done|]. intros s. rewrite Hin, elem_of_set_add, elem_of_cons. tauto.
Qed.

Lemma cache_set_spec filePath' (cache : list (StaticSymbol * ResolvedStaticSymbol)) acc :
  NoDup acc →
  let r := fold_left
             (λ symbols '(_, resolvedSymbol),
                if bool_decide (filePath (rs_symbol resolvedSymbol) = filePath')
                then set_add (rs_symbol resolvedSymbol) symbols
                else symbols) cache acc in
  NoDup r ∧
  ∀ s, s ∈ r ↔ s ∈ acc ∨ (∃ k rs, (k, rs) ∈ cache ∧ rs_symbol rs = s ∧
                                   filePath s = filePath').
Proof.
  revert acc. induction cache as [|[k rs] cache IH]; intros acc Hacc; simpl.
  - split; [done|]. intros s. split; [by left|].
    intros [|(? & ? & []%elem_of_nil & _)]; done.
  - case_bool_decide as Hf.
    + destruct (IH (set_add (rs_symbol rs) acc) (set_add_NoDup _ _ Hacc)) as [Hnd Hin].
      split; [done|]. intros s. rewrite Hin, elem_of_set_add. split.
      * intros [[->|?]|(k' & rs' & ? & ? & ?)]; [|by left|].
        -- right. exists k, rs. split_and!; [left|done..].
        -- right. exists k', rs'. split_and!; [by right|done..].
      * intros [?|(k' & rs' & [?|?]%elem_of_cons & ? & ?)]; [by left; right| |].
        -- simplify_eq. by left; left.
        -- right. by exists k', rs'.
    + destruct (IH acc Hacc) as [Hnd Hin].
      split; [done|]. intros s. rewrite Hin. split.
      * intros [?|(k' & rs' & ? & ? & ?)]; [by left|].
        right. exists k', rs'. split_and!; [by right|done..].
      * intros [?|(k' & rs' & [?|?]%elem_of_cons & ? & ?)]; [by left| |].
        -- simplify_eq.
        -- right. by exists k', rs'.
Qed.

Lemma collect_spec summaryResolver filePath' cache :
  NoDup (collect summaryResolver filePath' cache) ∧
  ∀ s, s ∈ collect summaryResolver filePath' cache ↔
       s ∈ summary_getSymbolsOf summaryResolver filePath' ∨
       (∃ k rs, (k, rs) ∈ cache ∧ rs_symbol rs = s ∧ filePath s = filePath').
Proof.
  unfold collect.
  destruct (summary_set_spec (summary_getSymbolsOf summaryResolver filePath') []
              NoDup_nil_2) as [Hnd Hin].
  destruct (cache_set_spec filePath' cache _ Hnd) as [Hnd' Hin'].
  split; [done|]. intros s. rewrite Hin', Hin, elem_of_nil. tauto.
Qed.

(** [getSymbolsOf] runs the walker and then collects. *)
Lemma getSymbolsOf_with_unfold summaryResolver walker filePath' st :
  getSymbolsOf_with summaryResolver walker filePath' st =
  match walker filePath' st with
  | Some (Val _ st') =>
      Some (Val (collect summaryResolver filePath' (resolvedSymbols st')) st')
  | Some (Exn e st') => Some (Exn e st')
  | None => None
  end.
Proof.
  unfold getSymbolsOf_with, bindF. by destruct (walker filePath' st) as [[]|].
Qed.

Section WalkerClaims.
Variable host : StaticSymbolResolverHost.
Variable summaryResolver : SummaryResolver.
Variable errorRecorder : bool.

(** C9.  When [getSymbolsOf f] returns, the walker has been run for [f]
    and the state returned is the walker's; the handles returned are those
    the summary resolver reports for [f] together with those of the cache
    of resolved symbols, as it is after the walker, whose file is [f]; a
    handle of the cache with another file is returned only if the summary
    resolver reports it for [f]. *)
Theorem getSymbolsOf_is_summary_union_cache fuel f st symbols st' :
  cache_ok st →
  getSymbolsOf host summaryResolver errorRecorder fuel f st = Some (Val symbols st') →
  _createSymbolsOf host summaryResolver errorRecorder fuel f st = Some (Val () st') ∧
  (∀ s, s ∈ symbols ↔
        s ∈ summary_getSymbolsOf summaryResolver f ∨
        (s ∈ (resolvedSymbols st').*1 ∧ filePath s = f)) ∧
  (∀ s, s ∈ (resolvedSymbols st').*1 → filePath s ≠ f →
        s ∉ summary_getSymbolsOf summaryResolver f → s ∉ symbols).
Proof.
  intros Hok H. unfold getSymbolsOf in H. rewrite getSymbolsOf_with_unfold in H.
  pose proof (_createSymbolsOf_runs host summaryResolver errorRecorder fuel f st I) as Hev.
  destruct (_createSymbolsOf _ _ _ _ _ _) as [[[] st1|]|]; [|done..].
  simplify_eq. destruct Hev as [Hev _].
  pose proof (evolves_cache_ok _ _ Hev Hok) as Hok'.
  assert (Hiff : ∀ s, s ∈ collect summaryResolver f (resolvedSymbols st') ↔
                      s ∈ summary_getSymbolsOf summaryResolver f ∨
                      (s ∈ (resolvedSymbols st').*1 ∧ filePath s = f)).
  { intros s. rewrite (proj2 (collect_spec summaryResolver f (resolvedSymbols st')) s).
    apply or_iff_compat_l. split.
    - intros (k & rs & Hin & <- & Hf). split; [|done].
      unfold cache_ok in Hok'. rewrite Forall_forall in Hok'.
      destruct (Hok' _ Hin) as [<- _].
      apply list_elem_of_fmap. by exists (k, rs).
    - intros [([k rs] & -> & Hin)%list_elem_of_fmap Hf].
      unfold cache_ok in Hok'. rewrite Forall_forall in Hok'.
      destruct (Hok' _ Hin) as [Hk _]. simpl in *. by exists k, rs. }
  split_and!; [done|done|].
  intros s Hs Hf Hsum. rewrite Hiff. tauto.
Qed.

End WalkerClaims.

Lemma getSymbolsOf_is_summary_union_cache_witness :
  ∃ st',
    _createSymbolsOf Example.host_cycle Example.summaries_a false 3 "/app/a"
      new_resolver = Some (Val () st') ∧
    ∀ s, s ∈ [Example.sym "/app/a" "s"; Example.sym "/app/a" "a";
              Example.sym "/app/a" "b"] ↔
         s ∈ summary_getSymbolsOf Example.summaries_a "/app/a" ∨
         (s ∈ (resolvedSymbols st').*1 ∧ filePath s = "/app/a").
Proof.
  eexists.
  refine (let H := getSymbolsOf_is_summary_union_cache Example.host_cycle
                     Example.summaries_a false 3 "/app/a" new_resolver _ _
                     cache_ok_new _ in conj (proj1 H) (proj1 (proj2 H))).
  vm_compute. reflexivity.
Defined.

(** ** The member projector *)


Lemma obj_find_get kvs k v :
  obj_get kvs k = v → v ≠ VUndefined → obj_find kvs k = Some v.
Proof.
  induction kvs as [|[k' v'] kvs IH]; simpl; [congruence|].
  case_bool_decide; [congruence | done].
Qed.

(** The decimal numeral of an index is not the key [length]. *)
Lemma pretty_N_char_digit x : starts_with_digit (String (pretty_N_char x) "").
Proof.
  unfold starts_with_digit, pretty_N_char.
  repeat (match goal with |- context [match ?y with _ => _ end] => destruct y end);
    set_solver.
Qed.

Lemma pretty_N_go_digit x s :
  starts_with_digit s → starts_with_digit (pretty_N_go x s).
Proof.
  revert s. induction (N.lt_wf_0 x) as [x _ IH]; intros s Hs.
  destruct (decide (0 < x)%N) as [Hx|Hx].
  - rewrite pretty_N_go_step by done. apply IH.
    + by apply N.div_lt.
    + apply pretty_N_char_digit.
  - assert (x = 0%N) as -> by lia. by rewrite pretty_N_go_0.
Qed.

Lemma pretty_nat_not_length (i : nat) : pretty i ≠ "length".
Proof.
  intros H.
  assert (Hd : starts_with_digit (pretty i)).
  { unfold pretty, pretty_nat, pretty, pretty_N. case_decide; [set_solver|].
    by apply pretty_N_go_digit. }
  rewrite H in Hd. unfold starts_with_digit in Hd. set_solver.
Qed.

Lemma arr_find_lookup xs i v :
  xs !! i = Some v → ∀ j, arr_find xs j (pretty (j + i)) = Some v.
Proof.
  revert i. induction xs as [|x xs IH]; intros i Hi j; [done|].
  simpl. destruct i as [|i]; simpl in Hi.
  - simplify_eq. by rewrite Nat.add_0_r, bool_decide_eq_true_2.
  - rewrite bool_decide_eq_false_2 by (intros ?%(inj pretty); lia).
    rewrite <- Nat.add_succ_comm. by apply IH.
Qed.

(** A property access finds an own entry or element before anything the
    value inherits. *)
Lemma get_prop_obj engine kvs k v :
  obj_find kvs k = Some v → get_prop engine (VObj kvs) k = v.
Proof. intros H. simpl. by rewrite H. Qed.

Lemma get_prop_arr engine xs i v :
  xs !! i = Some v → get_prop engine (VArr xs) (pretty i) = v.
Proof.
  intros H. simpl.
  rewrite bool_decide_eq_false_2 by apply pretty_nat_not_length.
  pose proof (arr_find_lookup _ _ _ H 0) as Hf. simpl in Hf. by rewrite Hf.
Qed.

(** The loop stops at the first member whose base is falsy and otherwise
    indexes all the way down. *)
Lemma walk_members_spec engine v ms :
  ∃ ms1 ms2,
    ms = ms1 ++ ms2 ∧
    walk_members engine v ms = fold_left (get_prop engine) ms1 v ∧
    (ms2 = [] ∨ truthy (fold_left (get_prop engine) ms1 v) = false) ∧
    (∀ p q, ms1 = p ++ q → q ≠ [] →
            truthy (fold_left (get_prop engine) p v) = true).
Proof.
  revert v. induction ms as [|m ms IH]; intros v.
  - exists [], []. split_and!; [done|done|by left|].
    intros p q Hpq Hq. by destruct p, q.
  - simpl. destruct (truthy v) eqn:Hv.
    + destruct (IH (get_prop engine v m)) as (ms1 & ms2 & -> & Hw & Hstop & Hpre).
      exists (m :: ms1), ms2. split_and!; [done|done|done|].
      intros p q Hpq Hq. destruct p as [|m' p]; [done|].
      simpl in Hpq. simplify_eq. simpl. by eapply Hpre.
    + exists [], (m :: ms). split_and!; [done|done|by right|].
      intros p q Hpq Hq. by destruct p, q.
Qed.

Section ProjectorClaims.
Variable host : StaticSymbolResolverHost.
Variable summaryResolver : SummaryResolver.
Variable errorRecorder : bool.
Variable engine : Engine.

#[local] Abbreviation resolve :=
  (resolveSymbol host summaryResolver errorRecorder engine).

Lemma resolveSymbol_empty fuel s :
  members s = [] →
  resolve fuel s = resolveSymbol_base host summaryResolver errorRecorder fuel s.
Proof. intros H. unfold resolveSymbol. by rewrite H. Qed.

Lemma resolveSymbol_members fuel s :
  members s ≠ [] →
  resolve fuel s =
  _resolveSymbolMembers engine
    (resolveSymbol_base host summaryResolver errorRecorder fuel) s.
Proof.
  intros H. unfold resolveSymbol. rewrite bool_decide_eq_true_2; [done|].
  destruct (members s); [done | simpl; lia].
Qed.

Lemma resolveSymbol_base_runs fuel s st r st' :
  resolveSymbol_base host summaryResolver errorRecorder fuel s st = Some (Val r st') →
  evolves st st'.
Proof.
  unfold resolveSymbol_base. destruct (_resolveSymbolFromSummary _ _).
  - unfold retF. intros. simplify_eq. apply rtc_refl.
  - unfold bindF. intros H.
    pose proof (_createSymbolsOf_runs host summaryResolver errorRecorder fuel
                  (filePath s) st I) as Hev.
    destruct (_createSymbolsOf _ _ _ _ _ _) as [[[] st1|]|]; [|done..].
    simplify_eq. by destruct Hev.
Qed.

(** Resolving a base handle a second time finds its file marked: nothing
    is loaded, reported or registered again. *)
Lemma resolveSymbol_base_again fuel s st r st' :
  resolveSymbol_base host summaryResolver errorRecorder fuel s st = Some (Val r st') →
  resolveSymbol_base host summaryResolver errorRecorder fuel s st' = Some (Val r st').
Proof.
  unfold resolveSymbol_base. destruct (_resolveSymbolFromSummary _ _).
  - unfold retF. intros. by simplify_eq.
  - unfold bindF. intros H.
    destruct (_createSymbolsOf _ _ _ _ _ st) as [[[] st1|]|] eqn:Hw; [|done..].
    simplify_eq.
    pose proof (_createSymbolsOf_marks _ _ _ _ _ _ _ Hw) as Hin.
    destruct fuel as [|fuel]; [done|]. simpl.
    by rewrite _createSymbolsOf_body_marked.
Qed.

(** C7.  When the base handle of a class resolves to metadata of kind
    "class" whose [statics] is a mapping that has the member [m], the
    handle with member path [[m]] resolves to the value of [m] in that
    mapping. *)
Theorem static_member_is_projected fuel file C m kvs statics v base st st' :
  resolve fuel (mkStaticSymbol file C []) st = Some (Val (Some base) st') →
  rs_metadata base = VObj kvs →
  obj_get kvs "__symbolic" = VStr "class" →
  obj_get kvs "statics" = VObj statics →
  obj_find statics m = Some v →
  resolve fuel (mkStaticSymbol file C [m]) st
  = Some (Val (Some (mkResolvedStaticSymbol (mkStaticSymbol file C [m]) v)) st').
Proof.
  intros Hbase Hmeta Hclass Hstatics Hm.
  rewrite resolveSymbol_empty in Hbase by done.
  rewrite resolveSymbol_members by done.
  unfold _resolveSymbolMembers, bindF. simpl.
  unfold getStaticSymbol. simpl. rewrite Hbase, Hmeta.
  rewrite (get_prop_obj engine kvs "__symbolic" (VStr "class"))
    by by apply obj_find_get.
  rewrite (get_prop_obj engine kvs "statics" (VObj statics))
    by by apply obj_find_get.
  simpl. by rewrite Hm.
Qed.

(** C8, as amended.  When the base handle resolves to a value that is
    neither a symbol handle nor a truthy value of kind "class", a handle
    with a member path resolves, in the state the base resolution left, to
    a resolved symbol (never to an error or to nothing) holding the result
    of the walk; the walk makes one property access per member and stops
    at the first step that meets a falsy value, which is then the result.
    A property access on an object or an array yields the entry or the
    element under the key when there is one, and otherwise whatever the
    value inherits through its prototype chain. *)
Theorem member_walk_is_partial fuel s base st st' :
  members s ≠ [] →
  resolve fuel (base_of s) st = Some (Val (Some base) st') →
  plain_base engine (rs_metadata base) →
  resolve fuel s st
  = Some (Val (Some (mkResolvedStaticSymbol s
                       (walk_members engine (rs_metadata base) (members s)))) st') ∧
  (∃ ms1 ms2,
     members s = ms1 ++ ms2 ∧
     walk_members engine (rs_metadata base) (members s)
     = fold_left (get_prop engine) ms1 (rs_metadata base) ∧
     (ms2 = [] ∨ truthy (fold_left (get_prop engine) ms1 (rs_metadata base)) = false) ∧
     (∀ p q, ms1 = p ++ q → q ≠ [] →
             truthy (fold_left (get_prop engine) p (rs_metadata base)) = true)) ∧
  (∀ kvs k v, obj_find kvs k = Some v → get_prop engine (VObj kvs) k = v) ∧
  (∀ xs i v, xs !! i = Some v → get_prop engine (VArr xs) (pretty i) = v) ∧
  (∀ kvs k, obj_find kvs k = None →
            get_prop engine (VObj kvs) k = inherited engine (VObj kvs) k).
Proof.
  intros Hms Hbase [Hsym Hclass].
  split_and!; [|apply walk_members_spec|apply get_prop_obj|apply get_prop_arr|].
  - rewrite resolveSymbol_empty in Hbase by done.
    rewrite resolveSymbol_members by done.
    unfold _resolveSymbolMembers, bindF. unfold base_of in Hbase. rewrite Hbase.
    destruct (rs_metadata base) as [| | | | | | |b] eqn:Hmeta;
      first [by destruct (Hsym b) | by rewrite Hclass].
  - intros kvs k Hk. simpl. by rewrite Hk.
Qed.

(** C10.  Resolving a handle [s] with a member path changes the state
    exactly as resolving its base handle does: the projection itself
    stores nothing.  The cache keeps being keyed by handles with an empty
    member path, so [s] is not a key of it.  A repeated resolution of [s]
    computes the same result again and leaves the state, and with it the
    key set of the cache, unchanged. *)
Theorem member_projection_is_not_cached fuel s r st st' :
  members s ≠ [] →
  cache_ok st →
  resolve fuel s st = Some (Val r st') →
  (∃ rb, resolve fuel (base_of s) st = Some (Val rb st')) ∧
  cache_ok st' ∧
  (s ∉ (resolvedSymbols st').*1) ∧
  resolve fuel s st' = Some (Val r st').
Proof.
  intros Hms Hok H.
  rewrite resolveSymbol_members in H by done.
  rewrite resolveSymbol_empty by done.
  rewrite resolveSymbol_members by done.
  unfold _resolveSymbolMembers, bindF in *. fold (base_of s) in *.
  destruct (resolveSymbol_base _ _ _ _ _ st) as [[rb st1|e st1]|] eqn:Hb; [|done..].
  assert (st1 = st') as ->.
  { unfold retF in H. destruct rb as [b|]; [|by simplify_eq].
    repeat match type of H with
           | context [match ?x with _ => _ end] => destruct x
           end; by simplify_eq. }
  pose proof (resolveSymbol_base_runs _ _ _ _ _ Hb) as Hev.
  pose proof (evolves_cache_ok _ _ Hev Hok) as Hok'.
  split_and!; [by eexists|done| |].
  - intros ([k rs] & -> & Hin)%list_elem_of_fmap.
    unfold cache_ok in Hok'. rewrite Forall_forall in Hok'.
    destruct (Hok' _ Hin) as [_ Hk]. done.
  - by rewrite (resolveSymbol_base_again _ _ _ _ _ Hb).
Qed.

End ProjectorClaims.

Lemma static_member_is_projected_witness :
  ∃ st',
    resolveSymbol Example.host_class Example.no_summaries false Example.engine 1
      (mkStaticSymbol "/app/c" "C" ["foo"]) new_resolver
    = Some (Val (Some (mkResolvedStaticSymbol (mkStaticSymbol "/app/c" "C" ["foo"])
                         (VNum 42))) st').
Proof.
  eexists.
  eapply (static_member_is_projected Example.host_class Example.no_summaries false
            Example.engine 1 "/app/c" "C" "foo" _ [("foo", VNum 42)] (VNum 42)).
  - vm_compute. reflexivity.
  - reflexivity.
  - reflexivity.
  - reflexivity.
  - reflexivity.
Defined.

Lemma member_walk_is_partial_witness :
  ∃ st',
    resolveSymbol Example.host_class Example.no_summaries false Example.engine 1
      (mkStaticSymbol "/app/c" "cfg" ["a"; "zz"; "b"]) new_resolver
    = Some (Val (Some (mkResolvedStaticSymbol
                         (mkStaticSymbol "/app/c" "cfg" ["a"; "zz"; "b"])
                         VUndefined)) st').
Proof.
  eexists.
  refine (proj1 (member_walk_is_partial Example.host_class Example.no_summaries
                   false Example.engine 1
                   (mkStaticSymbol "/app/c" "cfg" ["a"; "zz"; "b"])
                   (mkResolvedStaticSymbol (mkStaticSymbol "/app/c" "cfg" [])
                      (VObj [("a", VObj [("b", VNum 7)])]))
                   new_resolver _ _ _ _)).
  - done.
  - vm_compute. reflexivity.
  - split; [done | reflexivity].
Defined.

(** The walk does not stay inside the tree: on an engine whose objects
    inherit a [constructor], the member path [constructor.name] of a plain
    object leads to the name of that function. *)
Example member_walk_reaches_prototype :
  ∃ st',
    resolveSymbol Example.host_class Example.no_summaries false Example.engine 1
      (mkStaticSymbol "/app/c" "cfg" ["constructor"; "name"]) new_resolver
    = Some (Val (Some (mkResolvedStaticSymbol
                         (mkStaticSymbol "/app/c" "cfg" ["constructor"; "name"])
                         (VStr "Object"))) st').
Proof. eexists. vm_compute. reflexivity. Qed.

(** C8, as stated for every resolved base value, fails on a base of kind
    "class": the base handle resolves, a walk along the member path
    [statics.foo] would reach 42, yet the member-path handle resolves to
    nothing. *)
Lemma member_walk_not_for_classes :
  ∃ base st',
    resolveSymbol Example.host_class Example.no_summaries false Example.engine 1
      (mkStaticSymbol "/app/c" "C" []) new_resolver = Some (Val (Some base) st') ∧
    walk_members Example.engine (rs_metadata base) ["statics"; "foo"] = VNum 42 ∧
    resolveSymbol Example.host_class Example.no_summaries false Example.engine 1
      (mkStaticSymbol "/app/c" "C" ["statics"; "foo"]) new_resolver
    = Some (Val None st').
Proof. eexists _, _. split_and!; vm_compute; reflexivity. Qed.

Lemma member_projection_is_not_cached_witness :
  ∃ r st',
    resolveSymbol Example.host_class Example.no_summaries false Example.engine 1
      (mkStaticSymbol "/app/c" "C" ["foo"]) new_resolver = Some (Val r st') ∧
    (mkStaticSymbol "/app/c" "C" ["foo"] ∉ (resolvedSymbols st').*1) ∧
    resolveSymbol Example.host_class Example.no_summaries false Example.engine 1
      (mkStaticSymbol "/app/c" "C" ["foo"]) st' = Some (Val r st').
Proof.
  assert (∃ r st',
            resolveSymbol Example.host_class Example.no_summaries false Example.engine 1
              (mkStaticSymbol "/app/c" "C" ["foo"]) new_resolver
            = Some (Val r st')) as (r & st' & Hrun)
    by (eexists _, _; vm_compute; reflexivity).
  exists r, st'.
  destruct (member_projection_is_not_cached Example.host_class
              Example.no_summaries false Example.engine 1
              (mkStaticSymbol "/app/c" "C" ["foo"])
              r new_resolver st' ltac:(done) cache_ok_new Hrun)
    as (_ & _ & Hnot & Hagain).
  split_and!; done.
Defined.

(** ** The metadata store *)

Lemma select_fold_keep (l : list ModuleMetadata) (mx : Z) (sel : option ModuleMetadata) :
  Forall (λ x, (version x ≤ mx)%Z) l →
  fold_left
    (λ '(maxVersion, moduleMetadata) md,
       if (maxVersion <? version md)%Z then (version md, Some md)
       else (maxVersion, moduleMetadata)) l (mx, sel) = (mx, sel).
Proof.
  induction 1 as [|x l Hx _ IH]; simpl; [done|].
  destruct (Z.ltb_spec mx (version x)); [lia | exact IH].
Qed.

Lemma select_fold_below (l : list ModuleMetadata) (mx bound : Z)
    (sel : option ModuleMetadata) :
  (mx < bound)%Z →
  Forall (λ x, (version x < bound)%Z) l →
  ∃ mx' sel',
    fold_left
      (λ '(maxVersion, moduleMetadata) md,
         if (maxVersion <? version md)%Z then (version md, Some md)
         else (maxVersion, moduleMetadata)) l (mx, sel) = (mx', sel')
    ∧ (mx' < bound)%Z.
Proof.
  intros Hmx Hl. revert mx sel Hmx.
  induction Hl as [|x l Hx _ IH]; intros mx sel Hmx; simpl; [eauto|].
  destruct (Z.ltb_spec mx (version x)); apply IH; lia.
Qed.

(** The first candidate of highest version is selected, provided that
    version is above the initial [maxVersion]. *)
Lemma select_metadata_first_max l1 md l2 :
  (-1 < version md)%Z →
  Forall (λ x, (version x < version md)%Z) l1 →
  Forall (λ x, (version x ≤ version md)%Z) l2 →
  select_metadata (l1 ++ md :: l2) = Some md.
Proof.
  intros Hmd H1 H2. unfold select_metadata.
  rewrite fold_left_app.
  destruct (select_fold_below l1 (-1) (version md) None Hmd H1) as (mx' & sel' & -> & Hlt).
  simpl. destruct (Z.ltb_spec mx' (version md)); [|lia].
  by rewrite select_fold_keep.
Qed.

Lemma select_metadata_none mds :
  Forall (λ x, (version x ≤ -1)%Z) mds → select_metadata mds = None.
Proof. intros H. unfold select_metadata. by rewrite select_fold_keep. Qed.

Section MetadataStore.
Variable host : StaticSymbolResolverHost.
Variable errorRecorder : bool.

Lemma getModuleMetadata_hit module md st :
  metadataCache st !! module = Some md →
  getModuleMetadata host errorRecorder module st = Val md st.
Proof. intros H. unfold getModuleMetadata. by rewrite H. Qed.

Lemma getModuleMetadata_miss module st :
  metadataCache st !! module = None →
  getModuleMetadata host errorRecorder module st =
  let md := selected_metadata host module in
  if bool_decide (version md = SUPPORTED_SCHEMA_VERSION) then
    Val md (store_metadata module md st)
  else if errorRecorder then
    Val md (store_metadata module md
              (record_error (version_error module (version md)) None st))
  else Exn (version_error module (version md)) st.
Proof.
  intros H. unfold getModuleMetadata. rewrite H.
  change (default _ match getMetadataFor host module with
                    | Some mds => select_metadata mds
                    | None => None
                    end) with (selected_metadata host module).
  simpl. unfold bind.
  destruct (decide (version (selected_metadata host module) = SUPPORTED_SCHEMA_VERSION))
    as [Hv|Hv].
  - rewrite (bool_decide_eq_true_2 _ Hv), bool_decide_eq_false_2; [done|].
    by intros [].
  - rewrite (bool_decide_eq_false_2 _ Hv), bool_decide_eq_true_2 by done.
    unfold reportError. by destruct errorRecorder.
Qed.

End MetadataStore.

(** ** Walking a file whose transformer cannot fail *)

Lemma bindF_lift_Val {A B} (c : M A) (k : A → MF B) st a st' :
  c st = Val a st' → bindF (lift c) k st = k a st'.
Proof. unfold bindF, lift. by intros ->. Qed.


Lemma map_set_keys {K V} `{EqDecision K} (k k' : K) (v : V) m :
  k ∈ (map_set k' v m).*1 ↔ k = k' ∨ k ∈ m.*1.
Proof.
  induction m as [|[k0 v0] m IH]; simpl.
  - rewrite list_elem_of_singleton, elem_of_nil. tauto.
  - case_decide; simpl; rewrite !elem_of_cons; [subst; tauto|].
    rewrite IH. tauto.
Qed.


Lemma register_all_keys k l st :
  k ∈ (resolvedSymbols (fold_left (λ st rs, register rs st) l st)).*1 ↔
  k ∈ (resolvedSymbols st).*1 ∨ k ∈ rs_symbol <$> l.
Proof.
  revert st. induction l as [|r l IH]; intros st; simpl.
  - rewrite elem_of_nil. tauto.
  - rewrite IH. simpl. rewrite map_set_keys, elem_of_cons. tauto.
Qed.

Lemma register_all_frame l st :
  let st' := fold_left (λ st rs, register rs st) l st in
  metadataCache st' = metadataCache st ∧
  resolvedFilePaths st' = resolvedFilePaths st ∧
  recorded st' = recorded st ∧ console st' = console st.
Proof.
  revert st. induction l as [|r l IH]; intros st; [done|].
  simpl. by destruct (IH (register r st)) as (-> & -> & -> & ->).
Qed.

Section SimpleWalk.
Variable host : StaticSymbolResolverHost.
Variable summaryResolver : SummaryResolver.
Variable errorRecorder : bool.
Hypothesis host_never_throws : never_throws host.

Lemma createResolvedSymbol_returns sourceSymbol v :
  iterable_parameters v = true →
  ∃ v', (∀ st, createResolvedSymbol host errorRecorder sourceSymbol v st
               = Val (mkResolvedStaticSymbol sourceSymbol v') st) ∧
        (∀ st, visitValue host errorRecorder sourceSymbol v [] st = Val (v', []) st).
Proof.
  intros Hwf.
  destruct (visitValue_returns host errorRecorder sourceSymbol host_never_throws
              v Hwf []) as [v' Hv].
  exists v'. split; [|done]. intros st.
  unfold createResolvedSymbol, bind. by rewrite Hv.
Qed.

Lemma declarations_fold f declarations names :
  (∀ n, n ∈ names → iterable_parameters (obj_get declarations n) = true) →
  ∃ rs,
    declared host errorRecorder f declarations names rs ∧
    ∀ acc st,
      foldM (λ acc symbolName,
               let symbolMeta := obj_get declarations symbolName in
               let* r := createResolvedSymbol host errorRecorder
                           (getStaticSymbol f symbolName None) symbolMeta in
               ret (acc ++ [r]))
        names acc st
      = Val (acc ++ rs) st.
Proof.
  induction names as [|n names IH]; intros Hwf.
  - exists []. split; [constructor|]. intros acc st. simpl. by rewrite app_nil_r.
  - destruct IH as (rs & Hrs & Hfold); [intros; apply Hwf; by right|].
    destruct (createResolvedSymbol_returns (getStaticSymbol f n None)
                (obj_get declarations n)) as (v' & Hc & Hv); [apply Hwf; left|].
    exists (mkResolvedStaticSymbol (getStaticSymbol f n None) v' :: rs). split.
    + by constructor.
    + intros acc st. simpl. unfold bind. rewrite Hc. unfold ret.
      rewrite Hfold. by rewrite <- app_assoc.
Qed.

(** The block of direct declarations returns, leaving the state as it is. *)
Lemma declaredSymbols_returns f md :
  iterable_declarations md →
  ∃ rs,
    (∀ declarations, metadata md = Some declarations →
                     declared host errorRecorder f declarations (declarations.*1) rs) ∧
    (metadata md = None → rs = []) ∧
    ∀ acc st, declaredSymbols host errorRecorder f md acc st = Val (acc ++ rs) st.
Proof.
  intros Hwf. unfold declaredSymbols.
  destruct (metadata md) as [declarations|] eqn:Hmd.
  - destruct (declarations_fold f declarations (declarations.*1))
      as (rs & Hrs & Hfold).
    { intros n Hn. by eapply Hwf. }
    exists rs. split_and!; [by intros ? [= <-]|done|done].
  - exists []. split_and!; [done..|]. intros acc st. by rewrite app_nil_r.
Qed.

(** The walker on an unmarked file, once the document is loaded: what
    remains is the block of exports and the store into the cache. *)
Lemma walk_document getSymbolsOf' f md st st1 :
  f ∉ resolvedFilePaths st →
  getModuleMetadata host errorRecorder f (mark_resolved f st) = Val md st1 →
  iterable_declarations md →
  ∃ rs,
    (∀ declarations, metadata md = Some declarations →
                     declared host errorRecorder f declarations (declarations.*1) rs) ∧
    _createSymbolsOf_body host errorRecorder getSymbolsOf' f st =
    bindF (exportedSymbols host errorRecorder getSymbolsOf' f md rs)
      (λ resolvedSymbols' st,
         Some (Val () (fold_left (λ st resolvedSymbol, register resolvedSymbol st)
                         resolvedSymbols' st)))
      st1.
Proof.
  intros Hvis Hmd Hwf.
  destruct (declaredSymbols_returns f md Hwf) as (rs & Hdecl & _ & Hfold).
  exists rs. split; [done|].
  rewrite _createSymbolsOf_body_unmarked by done.
  unfold _createSymbolsOf_unresolved.
  rewrite (bindF_lift_Val _ _ _ _ _ Hmd).
  by rewrite (bindF_lift_Val _ _ _ _ _ (Hfold [] st1)).
Qed.

Lemma exportedSymbols_none getSymbolsOf' f md acc st :
  exports md = None →
  exportedSymbols host errorRecorder getSymbolsOf' f md acc st = Some (Val acc st).
Proof. intros H. unfold exportedSymbols. by rewrite H. Qed.

End SimpleWalk.

Section MetadataClaims.
Variable host : StaticSymbolResolverHost.
Variable summaryResolver : SummaryResolver.

(** C4.  Let the document selected for file [f], not loaded yet, have a
    version other than the supported one.  With an error recorder,
    [getModuleMetadata] reports the mismatch to it, stores the document
    and returns it, and a second call finds the document in the cache and
    reports nothing; without an error recorder it raises the mismatch.
    With an error recorder, on a host that never throws, if the document
    has no export directive and the transformer cannot fail on its
    declarations, [getSymbolsOf f] returns the handle of every declared
    name, exactly one report has been added, and asking again returns the
    same handles and adds none. *)
Theorem version_mismatch_is_reported_once f md st :
  metadataCache st !! f = None →
  selected_metadata host f = md →
  version md ≠ SUPPORTED_SCHEMA_VERSION →
  let report := (version_error f (version md), None) in
  let st1 := store_metadata f md (record_error report.1 report.2 st) in
  getModuleMetadata host true f st = Val md st1 ∧
  getModuleMetadata host true f st1 = Val md st1 ∧
  getModuleMetadata host false f st = Exn (version_error f (version md)) st ∧
  (never_throws host → cache_ok st → f ∉ resolvedFilePaths st →
   iterable_declarations md → exports md = None →
   ∀ fuel, 0 < fuel →
     ∃ symbols st',
       getSymbolsOf host summaryResolver true fuel f st = Some (Val symbols st') ∧
       (∀ declarations n, metadata md = Some declarations → n ∈ declarations.*1 →
                          getStaticSymbol f n None ∈ symbols) ∧
       recorded st' = recorded st ++ [report] ∧
       getSymbolsOf host summaryResolver true fuel f st' = Some (Val symbols st')).
Proof.
  intros Hmiss Hsel Hver report st1. split_and!.
  - rewrite getModuleMetadata_miss by done. simpl. rewrite Hsel.
    by rewrite bool_decide_eq_false_2.
  - apply getModuleMetadata_hit. simpl. apply lookup_insert_eq.
  - rewrite getModuleMetadata_miss by done. simpl. rewrite Hsel.
    by rewrite bool_decide_eq_false_2.
  - intros Hnt Hok Hvis Hwf Hexp fuel Hfuel.
    destruct fuel as [|fuel]; [lia|].
    assert (Hload : getModuleMetadata host true f (mark_resolved f st)
                    = Val md (store_metadata f md
                                (record_error report.1 report.2 (mark_resolved f st)))).
    { rewrite getModuleMetadata_miss by done. simpl. rewrite Hsel.
      by rewrite bool_decide_eq_false_2. }
    destruct (walk_document host true Hnt
                (getSymbolsOf_with summaryResolver
                   (_createSymbolsOf host summaryResolver true fuel))
                f md st _ Hvis Hload Hwf) as (rs & Hdecl & Hwalk).
    unfold bindF in Hwalk.
    rewrite (exportedSymbols_none host true _ f md _ _ Hexp) in Hwalk.
    set (st' := fold_left _ rs _) in Hwalk.
    assert (Hrun : getSymbolsOf host summaryResolver true (S fuel) f st
                   = Some (Val (collect summaryResolver f (resolvedSymbols st')) st')).
    { unfold getSymbolsOf. rewrite getSymbolsOf_with_unfold. simpl _createSymbolsOf.
      by rewrite Hwalk. }
    pose proof (getSymbolsOf_runs host summaryResolver true (S fuel) f st I) as Hev.
    rewrite Hrun in Hev. destruct Hev as [Hev _].
    pose proof (evolves_cache_ok _ _ Hev Hok) as Hok'.
    destruct (register_all_frame rs
                (store_metadata f md
                   (record_error report.1 report.2 (mark_resolved f st))))
      as (_ & Hv' & Hr' & _).
    fold st' in Hv', Hr'. simpl in Hv', Hr'.
    exists (collect summaryResolver f (resolvedSymbols st')), st'.
    split_and!; [done| |done|].
    + intros declarations n Hmd Hn.
      apply collect_spec. right.
      apply list_elem_of_lookup in Hn as [i Hi].
      destruct (Forall2_lookup_l _ _ _ _ _ (Hdecl _ Hmd) Hi) as (r & Hr & Hs & _).
      assert (Hkey : getStaticSymbol f n None ∈ (resolvedSymbols st').*1).
      { apply register_all_keys. right. rewrite <- Hs.
        apply list_elem_of_fmap. exists r. split; [done|].
        by eapply list_elem_of_lookup_2. }
      apply list_elem_of_fmap in Hkey as ([k r'] & Hk & Hin). simpl in Hk.
      unfold cache_ok in Hok'. rewrite Forall_forall in Hok'.
      destruct (Hok' _ Hin) as [Hkr _]. exists k, r'. split_and!; [done| |done].
      by rewrite <- Hkr, <- Hk.
    + unfold getSymbolsOf. rewrite getSymbolsOf_with_unfold. simpl _createSymbolsOf.
      rewrite _createSymbolsOf_body_marked; [done|]. rewrite Hv'. set_solver.
Qed.

(** C5, as amended.  On a cache miss [getModuleMetadata] takes, among the
    documents the host offers, the first one of highest version, provided
    that version is above -1 (it is then returned, or the version mismatch
    is raised when no error recorder is configured); if the host offers
    nothing, or only documents of version -1 or below, it returns and
    stores the synthesized empty document of the supported version. *)
Theorem getModuleMetadata_selects_highest_version errorRecorder f st :
  metadataCache st !! f = None →
  (∀ l1 md l2,
     getMetadataFor host f = Some (l1 ++ md :: l2) →
     (-1 < version md)%Z →
     Forall (λ x, (version x < version md)%Z) l1 →
     Forall (λ x, (version x ≤ version md)%Z) l2 →
     match getModuleMetadata host errorRecorder f st with
     | Val d st' => d = md ∧ metadataCache st' !! f = Some md
     | Exn e _ => errorRecorder = false ∧ version md ≠ SUPPORTED_SCHEMA_VERSION ∧
                  e = version_error f (version md)
     end) ∧
  ((getMetadataFor host f = None ∨
    ∃ mds, getMetadataFor host f = Some mds ∧ Forall (λ x, (version x ≤ -1)%Z) mds) →
   getModuleMetadata host errorRecorder f st
   = Val (synthesized_metadata f) (store_metadata f (synthesized_metadata f) st) ∧
   version (synthesized_metadata f) = SUPPORTED_SCHEMA_VERSION ∧
   metadata (synthesized_metadata f) = Some []).
Proof.
  intros Hmiss. split.
  - intros l1 md l2 Hhost Hmd H1 H2.
    assert (Hsel : selected_metadata host f = md).
    { unfold selected_metadata. rewrite Hhost. simpl.
      by rewrite select_metadata_first_max. }
    rewrite getModuleMetadata_miss by done. simpl. rewrite Hsel.
    case_bool_decide; [|destruct errorRecorder]; simpl;
      by rewrite ?lookup_insert_eq.
  - intros Hnone.
    assert (Hsel : selected_metadata host f = synthesized_metadata f).
    { unfold selected_metadata.
      destruct Hnone as [->|(mds & -> & Hmds)]; [done|].
      simpl. by rewrite select_metadata_none. }
    rewrite getModuleMetadata_miss by done. simpl. by rewrite Hsel.
Qed.

End MetadataClaims.

Lemma version_mismatch_is_reported_once_witness :
  ∃ symbols st',
    getSymbolsOf Example.host_future Example.no_summaries true 1 "/app/v" new_resolver
    = Some (Val symbols st') ∧
    mkStaticSymbol "/app/v" "answer" [] ∈ symbols ∧
    recorded st'
    = [(JsError "Metadata version mismatch for module /app/v, found version 99, expected 3",
        None)] ∧
    getSymbolsOf Example.host_future Example.no_summaries true 1 "/app/v" st'
    = Some (Val symbols st').
Proof.
  destruct (version_mismatch_is_reported_once Example.host_future Example.no_summaries
              "/app/v" Example.future_doc new_resolver eq_refl eq_refl ltac:(done))
    as (_ & _ & _ & H).
  destruct (H ltac:(by eexists) cache_ok_new ltac:(set_solver)
              ltac:(by intros ? ? [= <-] ->%list_elem_of_singleton) eq_refl 1
              ltac:(lia))
    as (symbols & st' & Hrun & Hin & Hrec & Hagain).
  exists symbols, st'. split_and!; [done| |done|done].
  apply (Hin [("answer", VNum 42)] "answer" eq_refl). by left.
Defined.

Lemma getModuleMetadata_selects_highest_version_witness :
  match getModuleMetadata Example.host_candidates false "/app/m" new_resolver with
  | Val d st' =>
      d = Example.candidate 3 "first" ∧
      metadataCache st' !! "/app/m" = Some (Example.candidate 3 "first")
  | Exn e _ =>
      false = false ∧
      version (Example.candidate 3 "first") ≠ SUPPORTED_SCHEMA_VERSION ∧
      e = version_error "/app/m" (version (Example.candidate 3 "first"))
  end.
Proof.
  apply (proj1 (getModuleMetadata_selects_highest_version Example.host_candidates
                  false "/app/m" new_resolver eq_refl)
           [Example.candidate 1 "old"] (Example.candidate 3 "first")
           [Example.candidate 3 "second"] eq_refl).
  - done.
  - repeat constructor.
  - by repeat constructor.
Defined.

(** C5, as stated, fails when the highest declared version is -1: the
    host offers one document for the file, and what is returned is not
    that document but the synthesized empty one. *)
Lemma highest_version_not_kept_below_zero :
  getMetadataFor Example.host_negative "/app/n" = Some [Example.candidate (-1) "x"] ∧
  getModuleMetadata Example.host_negative true "/app/n" new_resolver
  = Val (synthesized_metadata "/app/n")
      (store_metadata "/app/n" (synthesized_metadata "/app/n") new_resolver) ∧
  synthesized_metadata "/app/n" ≠ Example.candidate (-1) "x".
Proof. split_and!; [reflexivity|reflexivity|done]. Qed.

(** ** The walker does not raise on a quiet project *)

Lemma returnsF_ret {A} (a : A) (Q : A → Prop) : Q a → returnsF (retF a) Q.
Proof. by intros HQ st Hst. Qed.

Lemma returnsF_bind {A B} (c : MF A) (k : A → MF B) Q1 Q2 :
  returnsF c Q1 → (∀ a, Q1 a → returnsF (k a) Q2) → returnsF (bindF c k) Q2.
Proof.
  intros Hc Hk st Hst. unfold bindF. specialize (Hc st Hst).
  destruct (c st) as [[a st1|e st1]|]; [|done..].
  destruct Hc as [Hst1 Ha]. apply (Hk a Ha st1 Hst1).
Qed.

Lemma returnsF_foldMF {A B} (f : B → A → MF B) (I : B → Prop) l :
  (∀ acc x, I acc → returnsF (f acc x) I) →
  ∀ acc, I acc → returnsF (foldMF f l acc) I.
Proof.
  intros Hf. induction l as [|x l IH]; intros acc Hacc; simpl.
  - by apply returnsF_ret.
  - eapply returnsF_bind; [by apply Hf | apply IH].
Qed.

(** A computation that returns whatever the state, and leaves it as it
    is. *)
Lemma returnsF_pure {A} (c : M A) (Q : A → Prop) :
  (∀ st, ∃ a, c st = Val a st ∧ Q a) → returnsF (lift c) Q.
Proof. intros Hc st Hst. unfold lift. by destruct (Hc st) as (a & -> & Ha). Qed.

Section Quiet.
Variable host : StaticSymbolResolverHost.
Variable summaryResolver : SummaryResolver.
Variable errorRecorder : bool.
Hypothesis project_quiet : quiet_project host errorRecorder.

Lemma getModuleMetadata_returns f :
  returnsF (lift (getModuleMetadata host errorRecorder f)) iterable_declarations.
Proof.
  destruct project_quiet as (_ & Hdocs & Hver).
  intros st Hst. unfold lift.
  destruct (metadataCache st !! f) as [md|] eqn:Hc.
  - rewrite (getModuleMetadata_hit _ _ _ _ _ Hc). split; [done|]. by eapply Hst.
  - rewrite getModuleMetadata_miss by done. simpl.
    assert (Hstore : ∀ st0, metadataCache st0 = metadataCache st →
              quiet_state (store_metadata f (selected_metadata host f) st0)).
    { intros st0 Heq g md. simpl. rewrite Heq.
      destruct (decide (f = g)) as [->|Hne].
      - rewrite lookup_insert_eq. intros [= <-]. apply Hdocs.
      - rewrite lookup_insert_ne by done. apply Hst. }
    case_bool_decide as Hv; [by split; [apply Hstore|]|].
    destruct Hver as [->|Hall]; [by split; [apply Hstore|]|].
    by destruct Hv.
Qed.

Lemma resolveModule_pure module containingFile :
  ∀ st, ∃ p, resolveModule host errorRecorder module containingFile st = Val p st ∧ True.
Proof.
  destruct project_quiet as (Hnt & _ & _). intros st.
  destruct (resolveModule_returns host errorRecorder Hnt module containingFile)
    as [p Hp].
  exists p. by rewrite Hp.
Qed.

Lemma exportedSymbols_returns getSymbolsOf' f md acc :
  (∀ g, returnsF (getSymbolsOf' g) (λ _, True)) →
  returnsF (exportedSymbols host errorRecorder getSymbolsOf' f md acc) (λ _, True).
Proof.
  intros Hrec. unfold exportedSymbols.
  destruct (exports md) as [exports'|]; [|by apply returnsF_ret].
  apply returnsF_foldMF; [|done]. clear acc. intros acc moduleExport _.
  destruct (export moduleExport) as [exportSymbols|].
  - apply returnsF_pure. intros st. revert acc.
    induction exportSymbols as [|exportSymbol l IH]; intros acc; simpl.
    + by eexists.
    + unfold bind at 1. unfold bind at 1.
      destruct (resolveModule_pure (from moduleExport) f st) as (p & -> & _).
      destruct (path_truthy p); apply IH.
  - eapply returnsF_bind; [apply returnsF_pure, resolveModule_pure|].
    intros p _. destruct (path_truthy p); [|by apply returnsF_ret].
    eapply returnsF_bind; [apply Hrec|]. intros nested _. by apply returnsF_ret.
Qed.

Lemma _createSymbolsOf_body_returns getSymbolsOf' f :
  (∀ g, returnsF (getSymbolsOf' g) (λ _, True)) →
  returnsF (_createSymbolsOf_body host errorRecorder getSymbolsOf' f) (λ _, True).
Proof.
  destruct project_quiet as (Hnt & _ & _).
  intros Hrec st Hst. unfold _createSymbolsOf_body.
  case_bool_decide; [done|].
  assert (Hrest : returnsF (_createSymbolsOf_unresolved host errorRecorder
                              getSymbolsOf' f) (λ _, True)).
  { unfold _createSymbolsOf_unresolved.
    eapply returnsF_bind; [apply getModuleMetadata_returns|]. intros md Hmd.
    eapply (returnsF_bind _ _ (λ _, True)).
    { apply returnsF_pure. intros st0.
      destruct (declaredSymbols_returns host errorRecorder Hnt f md Hmd)
        as (rs & _ & _ & Hfold).
      exists ([] ++ rs). by rewrite Hfold. }
    intros acc _.
    eapply returnsF_bind; [by apply exportedSymbols_returns|].
    intros acc' _ st0 Hst0. split; [|done].
    intros g md'. destruct (register_all_frame acc' st0) as (-> & _). apply Hst0. }
  apply (Hrest (mark_resolved f st)). exact Hst.
Qed.

Lemma getSymbolsOf_with_returns walker f :
  returnsF (walker f) (λ _, True) →
  returnsF (getSymbolsOf_with summaryResolver walker f) (λ _, True).
Proof.
  intros Hw. unfold getSymbolsOf_with.
  eapply returnsF_bind; [apply Hw|]. by intros _ _ st Hst.
Qed.

Lemma _createSymbolsOf_returns fuel :
  ∀ f, returnsF (_createSymbolsOf host summaryResolver errorRecorder fuel f) (λ _, True).
Proof.
  induction fuel as [|fuel IH]; intros f; [by intros st _|].
  simpl. apply _createSymbolsOf_body_returns.
  intros g. by apply getSymbolsOf_with_returns.
Qed.

Lemma getSymbolsOf_returns fuel f :
  returnsF (getSymbolsOf host summaryResolver errorRecorder fuel f) (λ _, True).
Proof. apply getSymbolsOf_with_returns, _createSymbolsOf_returns. Qed.

End Quiet.

Lemma quiet_state_new : quiet_state new_resolver.
Proof. intros f md H. simpl in H. by rewrite lookup_empty in H. Qed.

Section CycleClaim.
Variable host : StaticSymbolResolverHost.
Variable summaryResolver : SummaryResolver.
Variable errorRecorder : bool.

(** C1.  In a project of finitely many files [U], let [A] and [B]
    wildcard-export from each other.  With fuel for [size U] nested walker
    calls, [getSymbolsOf A] comes to an end from every state: it returns or
    raises, and never runs out of fuel.  What it returns has no duplicate
    handle.  The reason is the order in the walker: entered on a marked
    file it returns at once, leaving the state as it is, and entered on an
    unmarked file it first marks the file and only then processes
    declarations and exports.  On a project on which nothing can raise,
    [getSymbolsOf A] does return a list. *)
Theorem mutual_wildcard_cycle_terminates (U : gset string) A B st fuel :
  (∀ p, resolved_by host p → p ∈ U) →
  wildcard_exports host st A B →
  wildcard_exports host st B A →
  size U < fuel →
  (∃ out, getSymbolsOf host summaryResolver errorRecorder fuel A st = Some out ∧
          ∀ symbols st', out = Val symbols st' →
                         NoDup symbols ∧ A ∈ resolvedFilePaths st') ∧
  (∀ st1, A ∈ resolvedFilePaths st1 →
          _createSymbolsOf host summaryResolver errorRecorder fuel A st1
          = Some (Val () st1)) ∧
  (∀ st1, A ∉ resolvedFilePaths st1 →
          _createSymbolsOf host summaryResolver errorRecorder fuel A st1
          = _createSymbolsOf_unresolved host errorRecorder
              (getSymbolsOf host summaryResolver errorRecorder (pred fuel)) A
              (mark_resolved A st1)) ∧
  (quiet_project host errorRecorder → quiet_state st →
   ∃ symbols st',
     getSymbolsOf host summaryResolver errorRecorder fuel A st
     = Some (Val symbols st') ∧ NoDup symbols).
Proof.
  intros HU HAB HBA Hfuel.
  assert (HA : A ∈ U).
  { destruct HBA as (? & e & _ & _ & _ & Hr). apply HU. by exists (from e), B. }
  assert (Hend : ∃ out,
            getSymbolsOf host summaryResolver errorRecorder fuel A st = Some out ∧
            ∀ symbols st', out = Val symbols st' →
                           NoDup symbols ∧ A ∈ resolvedFilePaths st').
  { pose proof (getSymbolsOf_total host summaryResolver errorRecorder U HU fuel A HA st)
      as H.
    destruct (getSymbolsOf _ _ _ _ _ _) as [out|] eqn:Hout.
    - exists out. split; [done|]. intros symbols st' ->.
      unfold getSymbolsOf in Hout. rewrite getSymbolsOf_with_unfold in Hout.
      destruct (_createSymbolsOf _ _ _ _ _ _) as [[[] st1|]|] eqn:Hw; [|done..].
      simplify_eq. split; [apply collect_spec|].
      by eapply _createSymbolsOf_marks.
    - exfalso. apply H; [|done].
      eapply Nat.le_lt_trans; [apply subseteq_size|exact Hfuel]. set_solver. }
  split_and!; [done| | |].
  - intros st1 Hin. destruct fuel as [|fuel']; [lia|]. simpl.
    by apply _createSymbolsOf_body_marked.
  - intros st1 Hnin. destruct fuel as [|fuel']; [lia|]. simpl.
    by apply _createSymbolsOf_body_unmarked.
  - intros Hquiet Hst. destruct Hend as (out & Hout & Hnd).
    pose proof (getSymbolsOf_returns host summaryResolver errorRecorder Hquiet
                  fuel A st Hst) as Hret.
    rewrite Hout in Hret. destruct out as [symbols st'|]; [|done].
    exists symbols, st'. split; [done|]. by apply (Hnd symbols st').
Qed.

End CycleClaim.

Lemma host_cycle_files p :
  resolved_by Example.host_cycle p → p ∈ ({["/app/a"; "/app/b"]} : gset string).
Proof.
  intros (m & c & H). simpl in H.
  repeat case_bool_decide; simplify_eq; set_solver.
Qed.

Lemma host_cycle_quiet : quiet_project Example.host_cycle false.
Proof.
  split_and!.
  - intros m c. simpl. repeat case_bool_decide; eauto.
  - intros f declarations n. unfold selected_metadata. simpl.
    repeat case_bool_decide; simpl; intros [= <-] Hn;
      try apply list_elem_of_singleton in Hn as ->; try reflexivity;
      by apply elem_of_nil in Hn.
  - right. intros f. unfold selected_metadata. simpl.
    by repeat case_bool_decide.
Qed.

Lemma mutual_wildcard_cycle_terminates_witness :
  ∃ symbols st',
    getSymbolsOf Example.host_cycle Example.summaries_a false 3 "/app/a" new_resolver
    = Some (Val symbols st') ∧ NoDup symbols.
Proof.
  refine (proj2 (proj2 (proj2
            (mutual_wildcard_cycle_terminates Example.host_cycle
               Example.summaries_a false {["/app/a"; "/app/b"]}
               "/app/a" "/app/b" new_resolver 3 host_cycle_files _ _ _)))
            host_cycle_quiet quiet_state_new).
  - exists [mkModuleExport None "./b"], (mkModuleExport None "./b").
    split_and!; [reflexivity|left|reflexivity|reflexivity].
  - exists [mkModuleExport None "./a"], (mkModuleExport None "./a").
    split_and!; [reflexivity|left|reflexivity|reflexivity].
  - vm_compute. lia.
Defined.

(** The run of the witness: the symbol known to the summary resolver, the
    declaration of [/app/a], and the declaration of [/app/b] re-exported
    through the cycle; one unit of fuel less does not reach the end. *)
Example mutual_wildcard_cycle_run :
  ∃ st',
    getSymbolsOf Example.host_cycle Example.summaries_a false 3 "/app/a" new_resolver
    = Some (Val [Example.sym "/app/a" "s"; Example.sym "/app/a" "a";
                 Example.sym "/app/a" "b"] st') ∧
    getSymbolsOf Example.host_cycle Example.summaries_a false 2 "/app/a" new_resolver
    = None.
Proof. eexists. split; vm_compute; reflexivity. Qed.

(** ** What a walk that returns has registered *)



Lemma map_get_elem_of {K V} `{EqDecision K} (k : K) (v : V) (m : list (K * V)) :
  map_get k m = Some v → (k, v) ∈ m.
Proof.
  induction m as [|[k' v'] m IH]; [done|]. simpl. case_decide as Hk.
  - intros [= ->]. subst. left.
  - intros Hm. right. by apply IH.
Qed.





Section Inversion.
Variable host : StaticSymbolResolverHost.
Variable summaryResolver : SummaryResolver.
Variable errorRecorder : bool.

(** *** What returns leaves the state as it is *)







(** *** The two blocks of the walker *)






End Inversion.

Section Walked.
Variable host : StaticSymbolResolverHost.
Variable summaryResolver : SummaryResolver.
Variable errorRecorder : bool.

#[local] Abbreviation walkedW := (walked host errorRecorder).
#[local] Abbreviation settledW := (settled host errorRecorder).








End Walked.

(** ** Re-exports: the last entry under a name wins *)


Section Reexport.
Variable host : StaticSymbolResolverHost.
Variable summaryResolver : SummaryResolver.
Variable errorRecorder : bool.
Variable engine : Engine.

#[local] Abbreviation resolveR :=
  (resolveSymbol host summaryResolver errorRecorder engine).





End Reexport.


